(** * ipu_ray_lib: trace codelets and geometry types

    A shallow embedding of [codelets/TraceCodelets.cpp] and
    [include/embree_utils/geometry.hpp].

    - C++ [float] is IEEE-754 binary32, modelled with the Standard
      Library's [spec_float] at precision 24 and maximal exponent 128, so
      NaN, the infinities and signed zeros behave as on the device.
    - 16 and 32 bit unsigned integers are [Z]; the 32-bit wrap-around of a
      loop counter is written out with [wrap32].
    - Arrays are lists read with stdpp's lookup; an access out of range is
      undefined in the source and is [None] in the model.
    - Functions of the repository that live in headers outside the three
      files above (BVH traversal, BxDF sampling, the hardware random number
      generator, ...) are collected in the interface [Externs]. *)

From Stdlib Require Import ZArith Bool List Lia.
From Stdlib Require Import Floats.SpecFloat.
From stdpp Require Import base option list.

Open Scope Z_scope.

(* ===================================================================== *)
(** ** Single precision floats *)
(* ===================================================================== *)

Module F32.

Definition prec : Z := 24.
Definition emax : Z := 128.

Definition float : Type := spec_float.

Definition add : float -> float -> float := SFadd prec emax.
Definition sub : float -> float -> float := SFsub prec emax.
Definition mul : float -> float -> float := SFmul prec emax.
Definition div : float -> float -> float := SFdiv prec emax.
Definition sqrt : float -> float := SFsqrt prec emax.
Definition opp : float -> float := SFopp.
Definition abs : float -> float := SFabs.

(** [a < b], [a > b] and [a == b] on floats: every comparison with a NaN
    is false. *)
Definition lt (a b : float) : bool := SFltb a b.
Definition gt (a b : float) : bool := SFltb b a.
Definition eqb (a b : float) : bool := SFeqb a b.
Definition le (a b : float) : bool := SFleb a b.

Definition is_nan (a : float) : bool :=
  match a with S754_nan => true | _ => false end.

(** A member of the format: the mantissa is normalised for its exponent
    and the exponent is in range. *)
Definition valid (a : float) : bool := valid_binary prec emax a.

(** Literals [0.f], [1.f], [.5f], [2.f], [3.f], infinity and quiet NaN. *)
Definition zero : float := S754_zero false.
Definition one : float := S754_finite false 8388608 (-23).
Definition half : float := S754_finite false 8388608 (-24).
Definition two : float := S754_finite false 8388608 (-22).
Definition three : float := S754_finite false 12582912 (-22).
Definition four : float := S754_finite false 8388608 (-21).
Definition infinity : float := S754_infinity false.
Definition neg_infinity : float := S754_infinity true.
Definition quiet_NaN : float := S754_nan.

(** [std::min(a, b)] is [(b < a) ? b : a] and [std::max(a, b)] is
    [(a < b) ? b : a]. *)
Definition min (a b : float) : float := if lt b a then b else a.
Definition max (a b : float) : float := if lt a b then b else a.

(** Conversion of a [double] (binary64) to [float]: round to nearest
    even. *)
Definition of_double (d : spec_float) : float :=
  match d with
  | S754_finite s m e => binary_round prec emax s m e
  | other => other
  end.

(** [a != b]: the negation of [a == b], true when either side is NaN. *)
Definition neq (a b : float) : bool := negb (eqb a b).

(** Conversion of a 32-bit unsigned integer to [float]: round to nearest
    even. *)
Definition of_uint32 (n : Z) : float := binary_normalize prec emax n 0 false.

End F32.

Abbreviation float := F32.float.

(** The [double] constants of geometry.hpp, and the [float] constants
    derived from them. Arithmetic on the right-hand sides is done in
    [double] (precision 53, maximal exponent 1024) and the result is
    narrowed. *)
Definition doublePi : spec_float := S754_finite false 7074237752028440 (-51).
Definition double_one : spec_float := S754_finite false 4503599627370496 (-52).
Definition double_two : spec_float := S754_finite false 4503599627370496 (-51).

Definition Pi : float := Eval vm_compute in F32.of_double doublePi.
Definition TwoPi : float :=
  Eval vm_compute in F32.of_double (SFmul 53 1024 double_two doublePi).
Definition InvPi : float :=
  Eval vm_compute in F32.of_double (SFdiv 53 1024 double_one doublePi).
Definition Inv2Pi : float :=
  Eval vm_compute in
    F32.of_double (SFdiv 53 1024 double_one (SFmul 53 1024 double_two doublePi)).
Definition Piby2 : float :=
  Eval vm_compute in F32.of_double (SFdiv 53 1024 doublePi double_two).

(* ===================================================================== *)
(** ** Integers of the source *)
(* ===================================================================== *)

Definition wrap32 (n : Z) : Z := n mod 2 ^ 32.

(* ===================================================================== *)
(** ** geometry.hpp *)
(* ===================================================================== *)

Module Vec3fa.

Record t : Type := mk { x : float; y : float; z : float }.

(** [Vec3fa(float _v)] *)
Definition splat (v : float) : t := mk v v v.

(** [operator[]]: the union overlays [c[3]] on [x, y, z]; an index above 2
    is out of bounds. *)
Definition c (v : t) (i : Z) : option float :=
  match i with
  | 0 => Some (x v)
  | 1 => Some (y v)
  | 2 => Some (z v)
  | _ => None
  end.

Definition add (a b : t) : t :=
  mk (F32.add (x a) (x b)) (F32.add (y a) (y b)) (F32.add (z a) (z b)).

Definition mul (a b : t) : t :=
  mk (F32.mul (x a) (x b)) (F32.mul (y a) (y b)) (F32.mul (z a) (z b)).

Definition scale (a : t) (f : float) : t :=
  mk (F32.mul (x a) f) (F32.mul (y a) f) (F32.mul (z a) f).

Definition min (a b : t) : t :=
  mk (F32.min (x a) (x b)) (F32.min (y a) (y b)) (F32.min (z a) (z b)).

Definition max (a b : t) : t :=
  mk (F32.max (x a) (x b)) (F32.max (y a) (y b)) (F32.max (z a) (z b)).

Definition maxi (v : t) : Z :=
  if F32.lt (x v) (y v)
  then (if F32.lt (x v) (z v) then 0 else 2)
  else (if F32.lt (y v) (z v) then 1 else 2).

Definition maxc (v : t) : option float := c v (maxi v).

Definition squaredNorm (v : t) : float :=
  F32.add (F32.add (F32.mul (x v) (x v)) (F32.mul (y v) (y v)))
          (F32.mul (z v) (z v)).

Definition normalized (v : t) : t :=
  scale v (F32.div F32.one (F32.sqrt (squaredNorm v))).

Definition has_nan (v : t) : bool :=
  F32.is_nan (x v) || F32.is_nan (y v) || F32.is_nan (z v).

(** [operator - () const] *)
Definition neg (a : t) : t := mk (F32.opp (x a)) (F32.opp (y a)) (F32.opp (z a)).

(** [operator - (const Vec3fa&)] *)
Definition sub (a b : t) : t :=
  mk (F32.sub (x a) (x b)) (F32.sub (y a) (y b)) (F32.sub (z a) (z b)).

Definition abs (a : t) : t := mk (F32.abs (x a)) (F32.abs (y a)) (F32.abs (z a)).

(** [permute]: three reads through [operator[]]. *)
Definition permute (a : t) (ix iy iz : Z) : option t :=
  match c a ix, c a iy, c a iz with
  | Some px, Some py, Some pz => Some (mk px py pz)
  | _, _, _ => None
  end.

Definition dot (a b : t) : float :=
  F32.add (F32.add (F32.mul (x a) (x b)) (F32.mul (y a) (y b)))
          (F32.mul (z a) (z b)).


Definition isZero (a : t) : bool :=
  F32.eqb (x a) F32.zero && F32.eqb (y a) F32.zero && F32.eqb (z a) F32.zero.

Definition isNonZero (a : t) : bool :=
  F32.neq (x a) F32.zero || F32.neq (y a) F32.zero || F32.neq (z a) F32.zero.

End Vec3fa.

Module Bounds3d.

Record t : Type := mk { min : Vec3fa.t; max : Vec3fa.t }.

(** [Bounds3d()] *)
Definition default : t :=
  mk (Vec3fa.splat F32.infinity) (Vec3fa.splat (F32.opp F32.infinity)).

(** [operator += (const Bounds3d&)] *)
Definition extend (b other : t) : t :=
  mk (Vec3fa.mk (F32.min (Vec3fa.x (min b)) (Vec3fa.x (min other)))
                (F32.min (Vec3fa.y (min b)) (Vec3fa.y (min other)))
                (F32.min (Vec3fa.z (min b)) (Vec3fa.z (min other))))
     (Vec3fa.mk (F32.max (Vec3fa.x (max b)) (Vec3fa.x (max other)))
                (F32.max (Vec3fa.y (max b)) (Vec3fa.y (max other)))
                (F32.max (Vec3fa.z (max b)) (Vec3fa.z (max other)))).

(** [operator += (const Vec3fa&)] *)
Definition extend_point (b : t) (v : Vec3fa.t) : t :=
  mk (Vec3fa.mk (F32.min (Vec3fa.x (min b)) (Vec3fa.x v))
                (F32.min (Vec3fa.y (min b)) (Vec3fa.y v))
                (F32.min (Vec3fa.z (min b)) (Vec3fa.z v)))
     (Vec3fa.mk (F32.max (Vec3fa.x (max b)) (Vec3fa.x v))
                (F32.max (Vec3fa.y (max b)) (Vec3fa.y v))
                (F32.max (Vec3fa.z (max b)) (Vec3fa.z v))).

Definition has_nan (b : t) : bool :=
  Vec3fa.has_nan (min b) || Vec3fa.has_nan (max b).

(** [centroid()] *)
Definition centroid (b : t) : Vec3fa.t :=
  Vec3fa.scale (Vec3fa.add (max b) (min b)) F32.half.

End Bounds3d.

Module PixelCoord.
Record t : Type := mk { u : float; v : float }.

(** [PixelCoord()] and [PixelCoord(std::uint32_t, std::uint32_t)] *)
Definition default : t := mk F32.neg_infinity F32.neg_infinity.
Definition ctor (_u _v : Z) : t := mk (F32.of_uint32 _u) (F32.of_uint32 _v).
End PixelCoord.

Module Ray.

Record t : Type := mk {
  origin : Vec3fa.t;
  tMin : float;
  direction : Vec3fa.t;
  tMax : float
}.

(** [Ray(const Vec3fa& o, const Vec3fa& d)] *)
Definition ctor (o d : Vec3fa.t) : t := mk o F32.zero d F32.infinity.

Definition set_direction (r : t) (d : Vec3fa.t) : t :=
  mk (origin r) (tMin r) d (tMax r).
Definition set_limits (r : t) (lo hi : float) : t :=
  mk (origin r) lo (direction r) hi.

End Ray.

Module HitRecord.

Definition InvalidGeomID : Z := 2 ^ 16 - 1.
Definition InvalidPrimID : Z := 2 ^ 32 - 1.

(** Bitmasks for the hit flag. *)
Definition ERROR : Z := 1.
Definition ESCAPED : Z := 2.

Record t : Type := mk {
  r : Ray.t;
  primID : Z;
  normal : Vec3fa.t;
  throughput : Vec3fa.t;
  geomID : Z;
  flags : Z
}.

(** [HitRecord(origin, dir)]. The constructor has no initialiser for
    [throughput]; [junk] stands for whatever the member holds. *)
Definition ctor (origin dir junk : Vec3fa.t) : t :=
  mk (Ray.ctor origin dir) InvalidPrimID
     (Vec3fa.mk F32.zero F32.zero F32.one) junk InvalidGeomID 0.

Definition set_r (h : t) (r' : Ray.t) : t :=
  mk r' (primID h) (normal h) (throughput h) (geomID h) (flags h).
Definition set_throughput (h : t) (v : Vec3fa.t) : t :=
  mk (r h) (primID h) (normal h) v (geomID h) (flags h).
Definition set_flags (h : t) (f : Z) : t :=
  mk (r h) (primID h) (normal h) (throughput h) (geomID h) f.

(** [flags |= mask] and the truth value of [flags & mask]. *)
Definition raise (h : t) (mask : Z) : t := set_flags h (Z.lor (flags h) mask).
Definition test (h : t) (mask : Z) : bool :=
  negb (Z.land (flags h) mask =? 0).

Definition clearFlags (h : t) : t := set_flags h 0.

End HitRecord.

Module TraceResult.

Record t : Type := mk {
  rgb : Vec3fa.t;
  p : PixelCoord.t;
  h : HitRecord.t
}.

Definition set_rgb (res : t) (c : Vec3fa.t) : t := mk c (p res) (h res).
Definition set_h (res : t) (h' : HitRecord.t) : t := mk (rgb res) (p res) h'.

(** [TraceResult(const HitRecord&, const PixelCoord&)] *)
Definition ctor (hit : HitRecord.t) (uv : PixelCoord.t) : t :=
  mk (Vec3fa.mk F32.zero F32.zero F32.zero) uv hit.

End TraceResult.

(* ===================================================================== *)
(** ** Material.hpp and Scene.hpp *)
(* ===================================================================== *)

Module Material.

(** Modelled from the spec: Material.hpp is not among the sources. The
    spec names the tags Diffuse, Specular and Refractive; [Other] stands
    for any further value the tag's storage can hold. *)
Inductive Type_ : Type :=
| Diffuse
| Specular
| Refractive
| Other (raw : Z).

(** Modelled from the spec: a tag, an emissive flag, an albedo, an index
    of refraction and an emission colour. *)
Record t : Type := mk {
  type : Type_;
  emissive : bool;
  albedo : Vec3fa.t;
  ior : float;
  emission : Vec3fa.t
}.

End Material.

(** The members of [SceneRef] that the codelets read. *)
Module SceneRef.
Record t : Type := mk {
  matIDs : list Z;
  materials : list Material.t;
  imageWidth : float;
  imageHeight : float;
  fovRadians : float;
  antiAliasScale : float;
  maxPathLength : Z;
  rouletteStartDepth : Z
}.
End SceneRef.

(* ===================================================================== *)
(** ** Arrays *)
(* ===================================================================== *)

(** [a[i]] for reading and [a[i] = x] for writing. *)
Definition load {A : Type} (a : list A) (i : Z) : option A :=
  if 0 <=? i then a !! Z.to_nat i else None.

Definition store {A : Type} (a : list A) (i : Z) (x : A) : option (list A) :=
  if (0 <=? i) && (i <? Z.of_nat (length a))
  then Some (<[Z.to_nat i := x]> a)
  else None.

Definition size {A : Type} (a : list A) : Z := Z.of_nat (length a).

(* ===================================================================== *)
(** ** Collaborators outside the three source files *)
(* ===================================================================== *)

(** The per-worker hardware random number generator is a tape per
    instruction with a read position. *)
Module Rng.
Record t : Type := mk { upos : nat; gpos : nat }.
End Rng.

Class Externs : Type := {
  (** what [CompactBvh::intersect] returns on a hit *)
  Isect : Type;
  (** [poplar::MultiVertex::numWorkers()] *)
  numWorkers : Z;
  (** successive values of [__builtin_ipu_urand_f32()] and of
      [__builtin_ipu_f32v2grand()] on this worker *)
  urand_f32 : nat -> float;
  f32v2grand : nat -> float * float;
  (** sincos.hpp and libm *)
  sincos : float -> float * float;
  acosf : float -> float;
  atan2 : float -> float -> float;
  (** Render.hpp, BxDF.hpp, CompactBvh.hpp; the BVH and the primitives are
      those of the tile-local scene *)
  pixelToRayDir : float -> float -> float -> float -> float -> Vec3fa.t;
  offsetRay : Ray.t -> Vec3fa.t -> Ray.t;
  bvh_intersect : Ray.t -> Ray.t * option Isect;
  updateHit : Isect -> HitRecord.t -> HitRecord.t;
  sampleDiffuse : Vec3fa.t -> float -> float -> Vec3fa.t;
  reflect : Vec3fa.t -> Vec3fa.t -> Vec3fa.t;
  dielectric : Ray.t -> Vec3fa.t -> float -> float -> Vec3fa.t * bool;
  evaluateRoulette : float -> Vec3fa.t -> bool;
  traceShadowRay : SceneRef.t -> float -> TraceResult.t -> Vec3fa.t -> TraceResult.t;
  (** contents of a member left without initialiser *)
  indeterminate : Vec3fa.t
}.

(* ===================================================================== *)
(** ** TraceCodelets.cpp *)
(* ===================================================================== *)

(** The loop shared by every multi-worker codelet,
    [for (auto r = workerID; r < size; r += numWorkers()) body],
    with a 32-bit counter. The loop visits indices below [N] only, so when
    it terminates it does so within [N] iterations; [loopFuel N] steps are
    therefore enough, and [None] means that the source loop does not return
    (or that the body ran into undefined behaviour). *)
Fixpoint workerLoop {S : Type} (fuel : nat) (body : Z -> S -> option S)
    (N W r : Z) (s : S) : option S :=
  match fuel with
  | O => None
  | Datatypes.S fuel' =>
      if r <? N
      then body r s ≫= workerLoop fuel' body N W (wrap32 (r + W))
      else Some s
  end.

Definition loopFuel (N : Z) : nat := Datatypes.S (Z.to_nat N).

(** [hw_uniform_0_1()]: one value is taken from the tape. *)
Definition hw_uniform_0_1 `{Externs} (g : Rng.t) : float * Rng.t :=
  (F32.add (urand_f32 (Rng.upos g)) F32.half,
   Rng.mk (Datatypes.S (Rng.upos g)) (Rng.gpos g)).

Definition ipu_f32v2grand `{Externs} (g : Rng.t) : (float * float) * Rng.t :=
  (f32v2grand (Rng.gpos g), Rng.mk (Rng.upos g) (Datatypes.S (Rng.gpos g))).

(** The state a worker threads through the ray loops: the ray stream and
    its random number generator. *)
Definition Stream : Type := list TraceResult.t * Rng.t.

(** Body of the loop of [sampleCameraRays]. *)
Definition sampleCameraRay `{Externs} (imageWidth imageHeight : float)
    (antiAliasScale : float * float) (fovTanTheta : float)
    (r : Z) (st : Stream) : option Stream :=
  let '(wrappedRays, g0) := st in
  result ← load wrappedRays r;
  let '(g, g1) := ipu_f32v2grand g0 in
  let p0 := F32.add (PixelCoord.u (TraceResult.p result))
                    (F32.mul (fst antiAliasScale) (fst g)) in
  let p1 := F32.add (PixelCoord.v (TraceResult.p result))
                    (F32.mul (snd antiAliasScale) (snd g)) in
  let rayDir := pixelToRayDir p1 p0 imageWidth imageHeight fovTanTheta in
  let rayOrigin := Vec3fa.mk F32.zero F32.zero F32.zero in
  let result' :=
    TraceResult.set_h result (HitRecord.ctor rayOrigin rayDir indeterminate) in
  rays' ← store wrappedRays r result';
  Some (rays', g1).

Definition sampleCameraRays `{Externs} (workerID : Z)
    (imageWidth imageHeight : float) (antiAliasScale : float * float)
    (fovRadians : float) (st : Stream) : option Stream :=
  let '(s, c) := sincos (F32.div fovRadians F32.two) in
  let fovTanTheta := F32.div s c in
  workerLoop (loopFuel (size (fst st)))
    (sampleCameraRay imageWidth imageHeight antiAliasScale fovTanTheta)
    (size (fst st)) numWorkers workerID st.

Module PathTrace.

(** What the bounce loop of one ray works on: the ray's entry ([hit] is
    a reference to [result.h]), the local [color] and the generator. *)
Record PathState : Type := mkState {
  result : TraceResult.t;
  color : Vec3fa.t;
  rng : Rng.t
}.

Inductive Flow : Type := Continue | Break.

Definition hit (st : PathState) : HitRecord.t := TraceResult.h (result st).
Definition set_hit (st : PathState) (h : HitRecord.t) : PathState :=
  mkState (TraceResult.set_h (result st) h) (color st) (rng st).

(** The [if (intersected)] branch, lines 214 to 244. *)
Definition shade `{Externs} (scene : SceneRef.t) (intersected : Isect)
    (st : PathState) : option PathState :=
  let hit1 := updateHit intersected (hit st) in
  matID ← load (SceneRef.matIDs scene) (HitRecord.geomID hit1);
  material ← load (SceneRef.materials scene) matID;
  let color1 :=
    if Material.emissive material
    then Vec3fa.add (color st)
           (Vec3fa.mul (HitRecord.throughput hit1) (Material.emission material))
    else color st in
  let attenuate (h : HitRecord.t) :=
    HitRecord.set_throughput h
      (Vec3fa.mul (HitRecord.throughput h) (Material.albedo material)) in
  let redirect (h : HitRecord.t) (d : Vec3fa.t) :=
    HitRecord.set_r h (Ray.set_direction (HitRecord.r h) d) in
  match Material.type material with
  | Material.Diffuse =>
      let '(u1, g1) := hw_uniform_0_1 (rng st) in
      let '(u2, g2) := hw_uniform_0_1 g1 in
      let hit2 := redirect hit1 (sampleDiffuse (HitRecord.normal hit1) u1 u2) in
      Some (mkState (TraceResult.set_h (result st) (attenuate hit2)) color1 g2)
  | Material.Specular =>
      let hit2 :=
        redirect hit1
          (reflect (Ray.direction (HitRecord.r hit1)) (HitRecord.normal hit1)) in
      Some (mkState (TraceResult.set_h (result st) (attenuate hit2)) color1 (rng st))
  | Material.Refractive =>
      let '(u1, g1) := hw_uniform_0_1 (rng st) in
      let '(dir, refracted) :=
        dielectric (HitRecord.r hit1) (HitRecord.normal hit1)
                   (Material.ior material) u1 in
      let hit2 := redirect hit1 dir in
      let hit3 := if refracted then attenuate hit2 else hit2 in
      Some (mkState (TraceResult.set_h (result st) hit3) color1 g1)
  | Material.Other _ =>
      let rgb' :=
        Vec3fa.mul (TraceResult.rgb (result st)) (Vec3fa.splat F32.quiet_NaN) in
      let hit2 := HitRecord.raise hit1 HitRecord.ERROR in
      Some (mkState (TraceResult.mk rgb' (TraceResult.p (result st)) hit2)
                    color1 (rng st))
  end.

(** The "random stopping" block, lines 250 to 254. *)
Definition roulette `{Externs} (scene : SceneRef.t) (i : Z)
    (st : PathState) : PathState * Flow :=
  if SceneRef.rouletteStartDepth scene <? i
  then
    let '(u1, g1) := hw_uniform_0_1 (rng st) in
    let st1 := mkState (result st) (color st) g1 in
    if evaluateRoulette u1 (HitRecord.throughput (hit st1))
    then (st1, Break)
    else (st1, Continue)
  else (st, Continue).

(** One iteration of the path trace loop, lines 207 to 254. *)
Definition bounce `{Externs} (scene : SceneRef.t) (i : Z)
    (st : PathState) : option (PathState * Flow) :=
  let r1 := offsetRay (HitRecord.r (hit st)) (HitRecord.normal (hit st)) in
  let r2 := Ray.set_limits r1 F32.zero F32.infinity in
  let '(r3, intersected) := bvh_intersect r2 in
  let st1 := set_hit st (HitRecord.set_r (hit st) r3) in
  match intersected with
  | Some isect => st2 ← shade scene isect st1; Some (roulette scene i st2)
  | None => Some (set_hit st1 (HitRecord.raise (hit st1) HitRecord.ESCAPED), Break)
  end.

(** [for (auto i = 0u; i < maxPathLength; ++i)], with [n] the number of
    iterations left. *)
Fixpoint bounceLoop `{Externs} (scene : SceneRef.t) (n : nat) (i : Z)
    (st : PathState) : option PathState :=
  match n with
  | O => Some st
  | Datatypes.S n' =>
      '(st', flow) ← bounce scene i st;
      match flow with
      | Break => Some st'
      | Continue => bounceLoop scene n' (i + 1) st'
      end
  end.

(** Body of the loop over rays, lines 201 to 257. *)
Definition tracePath `{Externs} (scene : SceneRef.t) (r : Z)
    (st : Stream) : option Stream :=
  let '(wrappedRays, g0) := st in
  result0 ← load wrappedRays r;
  let hit0 :=
    HitRecord.set_throughput (TraceResult.h result0)
      (Vec3fa.mk F32.one F32.one F32.one) in
  let st0 :=
    mkState (TraceResult.set_h result0 hit0)
            (Vec3fa.mk F32.zero F32.zero F32.zero) g0 in
  st1 ← bounceLoop scene (Z.to_nat (SceneRef.maxPathLength scene)) 0 st0;
  let result1 :=
    TraceResult.set_rgb (result st1)
      (Vec3fa.add (TraceResult.rgb (result st1)) (color st1)) in
  rays' ← store wrappedRays r result1;
  Some (rays', rng st1).

Definition tracePaths `{Externs} (scene : SceneRef.t) (workerID : Z)
    (st : Stream) : option Stream :=
  workerLoop (loopFuel (size (fst st))) (tracePath scene)
    (size (fst st)) numWorkers workerID st.

(** [for (auto s = 0u; s < vertexSampleCount; ++s)], with [n] the number
    of samples left. *)
Fixpoint sampleLoop `{Externs} (scene : SceneRef.t) (workerID : Z)
    (n : nat) (st : Stream) : option Stream :=
  match n with
  | O => Some st
  | Datatypes.S n' =>
      let aa := SceneRef.antiAliasScale scene in
      st1 ← sampleCameraRays workerID (SceneRef.imageWidth scene)
              (SceneRef.imageHeight scene) (aa, aa)
              (SceneRef.fovRadians scene) st;
      st2 ← tracePaths scene workerID st1;
      sampleLoop scene workerID n' st2
  end.

Definition compute `{Externs} (scene : SceneRef.t) (vertexSampleCount : Z)
    (workerID : Z) (st : Stream) : option Stream :=
  sampleLoop scene workerID (Z.to_nat vertexSampleCount) st.

End PathTrace.

Module ShadowTrace.

Definition body `{Externs} (scene : SceneRef.t) (ambientLightFactor : float)
    (lp : Vec3fa.t) (r : Z) (wrappedRays : list TraceResult.t)
    : option (list TraceResult.t) :=
  result ← load wrappedRays r;
  store wrappedRays r (traceShadowRay scene ambientLightFactor result lp).

Definition compute `{Externs} (scene : SceneRef.t) (ambientLightFactor : float)
    (lightPos : list float) (workerID : Z) (wrappedRays : list TraceResult.t)
    : option (list TraceResult.t) :=
  lp0 ← load lightPos 0;
  lp1 ← load lightPos 1;
  lp2 ← load lightPos 2;
  workerLoop (loopFuel (size wrappedRays))
    (body scene ambientLightFactor (Vec3fa.mk lp0 lp1 lp2))
    (size wrappedRays) numWorkers workerID wrappedRays.

End ShadowTrace.

Module PreProcessEscapedRays.

(** The output tensors [u] and [v]. *)
Definition UV : Type := list float * list float.

(** Lines 342 to 346: [phi] after the two range tests. [atan2] is taken
    at its [float] overload, so [phi] is a [float]. *)
Definition wrapPhi (phi : float) : float :=
  if F32.lt phi F32.zero then F32.add phi TwoPi
  else if F32.gt phi TwoPi then F32.sub phi TwoPi
  else phi.

Definition body `{Externs} (wrappedResults : list TraceResult.t)
    (azimuthRotation : float) (r : Z) (out : UV) : option UV :=
  let '(u, v) := out in
  result ← load wrappedResults r;
  let hit := TraceResult.h result in
  if HitRecord.test hit HitRecord.ESCAPED
  then
    let dir := Ray.direction (HitRecord.r hit) in
    let theta := acosf (Vec3fa.y dir) in
    let phi := F32.add (atan2 (Vec3fa.z dir) (Vec3fa.x dir)) azimuthRotation in
    let phi' := wrapPhi phi in
    u' ← store u r (F32.mul theta InvPi);
    v' ← store v r (F32.mul phi' Inv2Pi);
    Some (u', v')
  else
    u' ← store u r F32.zero;
    v' ← store v r F32.zero;
    Some (u', v').

Definition compute `{Externs} (wrappedResults : list TraceResult.t)
    (azimuthRotation : float) (workerId : Z) (out : UV) : option UV :=
  workerLoop (loopFuel (size wrappedResults))
    (body wrappedResults azimuthRotation)
    (size wrappedResults) numWorkers workerId out.

End PreProcessEscapedRays.

Module PostProcessEscapedRays.

Definition body (bgr : list (list float)) (r : Z)
    (wrappedResults : list TraceResult.t) : option (list TraceResult.t) :=
  result ← load wrappedResults r;
  let hit := TraceResult.h result in
  if HitRecord.test hit HitRecord.ESCAPED
  then
    v ← load bgr r;
    v2 ← load v 2;
    v1 ← load v 1;
    v0 ← load v 0;
    store wrappedResults r
      (TraceResult.set_rgb result
         (Vec3fa.add (TraceResult.rgb result)
            (Vec3fa.mul (HitRecord.throughput hit) (Vec3fa.mk v2 v1 v0))))
  else Some wrappedResults.

Definition compute `{Externs} (bgr : list (list float)) (workerId : Z)
    (wrappedResults : list TraceResult.t) : option (list TraceResult.t) :=
  workerLoop (loopFuel (size wrappedResults)) (body bgr)
    (size wrappedResults) numWorkers workerId wrappedResults.

End PostProcessEscapedRays.

(* ===================================================================== *)
(** ** Reference definitions used by the statements *)
(* ===================================================================== *)

(** The indices [i, i + W, i + 2 W, ...] below [N], in this order. *)
Definition strideIndices (i N W : Z) : list Z :=
  (λ k, i + k * W) <$> seqZ 0 ((N - i + W - 1) / W).

(** Running a loop body over a list of indices, in order. *)
Fixpoint foldOpt {S : Type} (body : Z -> S -> option S) (l : list Z) (s : S)
    : option S :=
  match l with
  | [] => Some s
  | r :: l' => body r s ≫= foldOpt body l'
  end.

(** Every component is NaN. *)
Definition poisoned (v : Vec3fa.t) : Prop :=
  Vec3fa.x v = S754_nan ∧ Vec3fa.y v = S754_nan ∧ Vec3fa.z v = S754_nan.

(** [flags] has the bit of [mask] set, for the two one-bit masks. *)
Definition escaped (h : HitRecord.t) : bool := Z.testbit (HitRecord.flags h) 1.
Definition errored (h : HitRecord.t) : bool := Z.testbit (HitRecord.flags h) 0.

(** What Phase B leaves in an entry whose sample is [v]: the three
    channels arrive as blue, green, red. *)
Definition withSample (res : TraceResult.t) (v : list float) : TraceResult.t :=
  match v with
  | blue :: green :: red :: _ =>
      TraceResult.set_rgb res
        (Vec3fa.add (TraceResult.rgb res)
           (Vec3fa.mul (HitRecord.throughput (TraceResult.h res))
                       (Vec3fa.mk red green blue)))
  | _ => res
  end.

Definition postEntry (bgr : list (list float)) (r : Z) (res : TraceResult.t)
    : TraceResult.t :=
  if escaped (TraceResult.h res)
  then match load bgr r with Some v => withSample res v | None => res end
  else res.

(** The coordinates Phase A emits for an entry. *)
Definition uvEntry `{Externs} (azimuthRotation : float) (res : TraceResult.t)
    : float * float :=
  if escaped (TraceResult.h res)
  then
    let dir := Ray.direction (HitRecord.r (TraceResult.h res)) in
    (F32.mul (acosf (Vec3fa.y dir)) InvPi,
     F32.mul (PreProcessEscapedRays.wrapPhi
                (F32.add (atan2 (Vec3fa.z dir) (Vec3fa.x dir)) azimuthRotation))
             Inv2Pi)
  else (F32.zero, F32.zero).

(** Boundary values of the longitude: [eps] is 2^-10, [tiny] is 2^-30. *)
Definition eps : float := S754_finite false 8388608 (-33).
Definition tiny : float := S754_finite false 8388608 (-53).

(** Two turns, [TwoPi + TwoPi], which is exact. *)
Definition twoTurns : float := Eval vm_compute in F32.add TwoPi TwoPi.

(** [fx d] is the exponent of the last mantissa bit of a binary32 number
    lying between [2^(d-1)] and [2^d]. *)
Definition fx : Z -> Z := fexp 24 128.

(** [0 <= phi < 2 pi] and [0 <= phi <= 2 pi] in single precision. *)
Definition inTurn (phi : float) : bool := F32.le F32.zero phi && F32.lt phi TwoPi.
Definition inClosedTurn (phi : float) : bool :=
  F32.le F32.zero phi && F32.le phi TwoPi.

(** Componentwise [a <= b]. *)
Definition vle (a b : Vec3fa.t) : bool :=
  F32.le (Vec3fa.x a) (Vec3fa.x b) && F32.le (Vec3fa.y a) (Vec3fa.y b) &&
  F32.le (Vec3fa.z a) (Vec3fa.z b).

(** Uniform samples a bounce takes to shade a material. *)
Definition shadeDraws (tag : Material.Type_) : nat :=
  match tag with
  | Material.Diffuse => 2
  | Material.Refractive => 1
  | Material.Specular | Material.Other _ => 0
  end.

(** No material of the scene emits. *)
Definition noEmitters (scene : SceneRef.t) : Prop :=
  Forall (λ m, Material.emissive m = false) (SceneRef.materials scene).

(** The part of the ray stream a worker may not change, and what it may
    use of the generator after [k] steps costing at most [c] uniform samples
    and exactly [d] Gaussian pairs each. *)
Definition streamKept `{Externs} (w : Z) (c d : nat) (s0 : Stream) (k : nat)
    (s : Stream) : Prop :=
  size (fst s) = size (fst s0) ∧
  (∀ j, j ∉ strideIndices w (size (fst s0)) numWorkers →
        load (fst s) j = load (fst s0) j) ∧
  (∀ j, TraceResult.p <$> load (fst s) j = TraceResult.p <$> load (fst s0) j) ∧
  Rng.gpos (snd s) = (Rng.gpos (snd s0) + d * k)%nat ∧
  (Rng.upos (snd s0) ≤ Rng.upos (snd s) ≤ Rng.upos (snd s0) + c * k)%nat.

(** The largest [float] below one half. *)
Definition belowHalf : float := S754_finite false 16777215 (-25).

(** The mantissa of a finite number has at most 24 bits. *)
Definition smallMantissa (a : float) : Prop :=
  match a with
  | S754_finite _ m _ => Zpos m < 2 ^ 24
  | _ => True
  end.

(** A member of the format whose double does not overflow: not in the
    topmost binade. *)
Definition doubles (a : float) : bool :=
  F32.valid a && match a with S754_finite _ _ e => e <? 104 | _ => true end.

(** The largest finite [float]. *)
Definition maxFloat : float := S754_finite false 16777215 104.

(* ===================================================================== *)
(** ** Small scenes for concrete runs *)
(* ===================================================================== *)

(** A stand-in for the collaborators: the BVH reports [target] for every
    ray ([None] is the empty scene), a hit only records the geometry id,
    the generator returns 0 (so [hw_uniform_0_1] is 0.5), directions are
    left as they are and the roulette test answers [stop]. [acosf] and
    [atan2] are right at the one direction they are applied to below,
    (1, 0, 0): [acosf(0)] is [Piby2] and [atan2(0, 1)] is 0. *)
Definition fixedExterns (target : option Z) (stop : bool) : Externs := {|
  Isect := Z;
  numWorkers := 6;
  urand_f32 := λ _, F32.zero;
  f32v2grand := λ _, (F32.zero, F32.zero);
  sincos := λ _, (F32.zero, F32.one);
  acosf := λ _, Piby2;
  atan2 := λ _ _, F32.zero;
  pixelToRayDir := λ _ _ _ _ _, Vec3fa.mk F32.zero F32.zero F32.one;
  offsetRay := λ r _, r;
  bvh_intersect := λ r, (r, target);
  updateHit := λ g h,
    HitRecord.mk (HitRecord.r h) (HitRecord.primID h) (HitRecord.normal h)
                 (HitRecord.throughput h) g (HitRecord.flags h);
  sampleDiffuse := λ n _ _, n;
  reflect := λ d _, d;
  dielectric := λ r _ _ _, (Ray.direction r, true);
  evaluateRoulette := λ _ _, stop;
  traceShadowRay := λ _ _ res _, res;
  indeterminate := Vec3fa.splat F32.zero
|}.

Definition vzero : Vec3fa.t := Vec3fa.splat F32.zero.
Definition vone : Vec3fa.t := Vec3fa.splat F32.one.
Definition vhalf : Vec3fa.t := Vec3fa.splat F32.half.

Definition mirror : Material.t :=
  Material.mk Material.Specular false vhalf F32.one vzero.
Definition broken : Material.t :=
  Material.mk (Material.Other 7) false vhalf F32.one vzero.

(** One geometry with material [m]; roulette enabled from depth
    [startDepth]. *)
Definition sceneWith (m : Material.t) (maxLen startDepth : Z) : SceneRef.t :=
  SceneRef.mk [0] [m] F32.one F32.one F32.one F32.zero maxLen startDepth.

Definition cameraHit : HitRecord.t :=
  HitRecord.ctor vzero (Vec3fa.mk F32.zero F32.zero F32.one) vone.
Definition cameraResult : TraceResult.t :=
  TraceResult.mk vzero (PixelCoord.mk F32.zero F32.zero) cameraHit.
Definition freshRng : Rng.t := Rng.mk 0 0.
Definition cameraState : PathTrace.PathState :=
  PathTrace.mkState cameraResult vzero freshRng.

(** An entry whose ray left the scene with throughput one half. *)
Definition escapedResult : TraceResult.t :=
  TraceResult.mk vone (PixelCoord.mk F32.zero F32.zero)
    (HitRecord.mk (Ray.ctor vzero (Vec3fa.mk F32.one F32.zero F32.zero))
       HitRecord.InvalidPrimID (Vec3fa.mk F32.zero F32.zero F32.one) vhalf
       HitRecord.InvalidGeomID HitRecord.ESCAPED).

(* ===================================================================== *)
(** Where three bounces between mirrors, without roulette stop, leave the
    camera ray. *)
Definition mirrorPathEnd : PathTrace.PathState :=
  Eval vm_compute in
    match PathTrace.bounceLoop (H := fixedExterns (Some 0) false)
            (sceneWith mirror 3 0) 3 0 cameraState with
    | Some st => st
    | None => cameraState
    end.

(** The stream after tracing the camera ray among mirrors, with a roulette
    that stops as soon as it is asked. *)
Definition mirrorTraceEnd : Stream :=
  Eval vm_compute in
    match PathTrace.tracePath (H := fixedExterns (Some 0) true)
            (sceneWith mirror 3 0) 0 ([cameraResult], freshRng) with
    | Some s => s
    | None => ([], freshRng)
    end.

(** The stream after worker 0 has run the vertex with two samples on a
    camera ray and an entry of another worker's share. *)
Definition twoSampleEnd : Stream :=
  Eval vm_compute in
    match PathTrace.compute (H := fixedExterns (Some 0) true)
            (sceneWith mirror 3 0) 2 0
            ([cameraResult; escapedResult], freshRng) with
    | Some s => s
    | None => ([], freshRng)
    end.

(** * Properties *)
(* ===================================================================== *)

(** ** Floats *)

Lemma float_constants :
  Pi = S754_finite false 13176795 (-22) ∧
  TwoPi = S754_finite false 13176795 (-21) ∧
  InvPi = S754_finite false 10680707 (-25) ∧
  Inv2Pi = S754_finite false 10680707 (-26).
Proof. repeat split; reflexivity. Qed.

Lemma lt_infinity (a : float) :
  F32.lt a F32.infinity = match a with
                          | S754_nan | S754_infinity false => false
                          | _ => true
                          end.
Proof. destruct a as [[]|[]| |[] m e]; reflexivity. Qed.

Lemma neg_infinity_lt (a : float) :
  F32.lt F32.neg_infinity a = match a with
                              | S754_nan | S754_infinity true => false
                              | _ => true
                              end.
Proof. destruct a as [[]|[]| |[] m e]; reflexivity. Qed.

Lemma min_infinity (a : float) :
  F32.is_nan a = false → F32.min F32.infinity a = a.
Proof.
  intros Ha. unfold F32.min. rewrite lt_infinity.
  destruct a as [[]|[]| |[] m e]; try reflexivity. discriminate Ha.
Qed.

Lemma max_neg_infinity (a : float) :
  F32.is_nan a = false → F32.max F32.neg_infinity a = a.
Proof.
  intros Ha. unfold F32.max. rewrite neg_infinity_lt.
  destruct a as [[]|[]| |[] m e]; try reflexivity. discriminate Ha.
Qed.

Lemma mul_nan_r (a : float) : F32.mul a S754_nan = S754_nan.
Proof. destruct a as [[]|[]| |[] m e]; reflexivity. Qed.

Lemma add_nan_l (a : float) : F32.add S754_nan a = S754_nan.
Proof. reflexivity. Qed.

Lemma SFcompare_swap (a b : float) :
  SFcompare b a = CompOpp <$> SFcompare a b.
Proof.
  destruct a as [[]|[]| |[] ma ea], b as [[]|[]| |[] mb eb];
    try reflexivity; simpl; rewrite (Z.compare_antisym eb ea);
    destruct (eb ?= ea); simpl; try reflexivity;
    change (Pos.compare_cont Eq ma mb) with (Pos.compare ma mb);
    change (Pos.compare_cont Eq mb ma) with (Pos.compare mb ma);
    rewrite (Pos.compare_antisym mb ma); destruct (mb ?= ma)%positive;
    reflexivity.
Qed.

Lemma le_not_gt (a b : float) : F32.le a b = true → F32.gt a b = false.
Proof.
  unfold F32.le, F32.gt, SFleb, SFltb. rewrite (SFcompare_swap a b).
  destruct (SFcompare a b) as [[]|]; simpl; congruence.
Qed.

Lemma le_not_lt (a b : float) : F32.le a b = true → F32.lt b a = false.
Proof. apply le_not_gt. Qed.

Lemma lt_le (a b : float) : F32.lt a b = true → F32.le a b = true.
Proof.
  unfold F32.lt, F32.le, SFltb, SFleb.
  destruct (SFcompare a b) as [[]|]; congruence.
Qed.

Lemma not_lt_le (a b : float) :
  F32.is_nan a = false → F32.is_nan b = false →
  F32.lt a b = false → F32.le b a = true.
Proof.
  unfold F32.lt, F32.le, SFltb, SFleb. intros Ha Hb.
  rewrite (SFcompare_swap a b).
  destruct a as [[]|[]| |[] ma ea], b as [[]|[]| |[] mb eb];
    try discriminate; simpl; try congruence;
    destruct (ea ?= eb); simpl; try congruence;
    destruct (Pos.compare_cont Eq ma mb); simpl; congruence.
Qed.

Lemma le_refl (a : float) : F32.is_nan a = false → F32.le a a = true.
Proof.
  intros Ha. apply not_lt_le; try assumption.
  unfold F32.lt, SFltb.
  destruct a as [[]|[]| |[] ma ea]; try reflexivity; try discriminate;
    simpl; rewrite Z.compare_refl;
    change (Pos.compare_cont Eq ma ma) with (Pos.compare ma ma);
    rewrite Pos.compare_refl; reflexivity.
Qed.

Ltac compare_cases :=
  repeat match goal with
  | H : context [(?a ?= ?b)%Z] |- _ => destruct (Z.compare_spec a b)
  | H : context [Pos.compare_cont Eq ?a ?b] |- _ =>
      change (Pos.compare_cont Eq a b) with (Pos.compare a b) in H;
      destruct (Pos.compare_spec a b)
  | |- context [(?a ?= ?b)%Z] => destruct (Z.compare_spec a b)
  | |- context [Pos.compare_cont Eq ?a ?b] =>
      change (Pos.compare_cont Eq a b) with (Pos.compare a b);
      destruct (Pos.compare_spec a b)
  end.

Lemma le_trans (a b c : float) :
  F32.le a b = true → F32.le b c = true → F32.le a c = true.
Proof.
  unfold F32.le, SFleb.
  destruct a as [[]|[]| |[] ma ea], b as [[]|[]| |[] mb eb],
           c as [[]|[]| |[] mc ec];
    simpl; try reflexivity; try discriminate; intros Hab Hbc;
    compare_cases; simpl in *; try reflexivity; try discriminate; lia.
Qed.

Lemma has_nan_false (v : Vec3fa.t) :
  Vec3fa.has_nan v = false →
  F32.is_nan (Vec3fa.x v) = false ∧ F32.is_nan (Vec3fa.y v) = false ∧
  F32.is_nan (Vec3fa.z v) = false.
Proof.
  unfold Vec3fa.has_nan. intros Hv.
  apply orb_false_elim in Hv as [Hxy Hz].
  apply orb_false_elim in Hxy as [Hx Hy]. auto.
Qed.

(** ** Rounding to nearest in binary32 *)

Lemma digits2_size (p : positive) : digits2_pos p = Pos.size p.
Proof. induction p; simpl; congruence. Qed.

Lemma digits2_bounds (p : positive) :
  2 ^ (Zpos (digits2_pos p) - 1) ≤ Zpos p < 2 ^ Zpos (digits2_pos p).
Proof.
  rewrite digits2_size. split.
  - pose proof (Pos.size_le p) as H.
    assert (Zpos (2 ^ Pos.size p) ≤ Zpos p~0) as H' by exact H.
    rewrite Pos2Z.inj_pow in H'. change (Zpos p~0) with (2 * Zpos p) in H'.
    replace (Zpos (Pos.size p)) with (Zpos (Pos.size p) - 1 + 1) in H' by lia.
    rewrite Z.pow_add_r in H' by lia. change (2 ^ 1) with 2 in H'. lia.
  - pose proof (Pos.size_gt p) as H.
    assert (Zpos p < Zpos (2 ^ Pos.size p)) as H' by exact H.
    rewrite Pos2Z.inj_pow in H'. exact H'.
Qed.

Lemma iter_xO (m d : positive) : Zpos (Pos.iter xO m d) = Zpos m * 2 ^ Zpos d.
Proof.
  induction d using Pos.peano_ind.
  - simpl. lia.
  - rewrite Pos.iter_succ. rewrite Pos2Z.inj_xO, IHd, Pos2Z.inj_succ, Z.pow_succ_r by lia. lia.
Qed.

Lemma shr_1_m (mrs : shr_record) :
  0 ≤ shr_m mrs → shr_m (shr_1 mrs) = shr_m mrs / 2.
Proof.
  destruct mrs as [m r s]. simpl. intros Hm.
  destruct m as [|p|p]; try lia; [reflexivity|].
  destruct p; cbn [shr_m].
  - rewrite Pos2Z.inj_xI. apply Z.div_unique with 1; lia.
  - rewrite Pos2Z.inj_xO. apply Z.div_unique with 0; lia.
  - reflexivity.
Qed.

Lemma pow2_xO (n : positive) : 2 ^ Zpos n~0 = 2 ^ Zpos n * 2 ^ Zpos n.
Proof. rewrite <- Z.pow_add_r by lia. f_equal. lia. Qed.

Lemma pow2_xI (n : positive) : 2 ^ Zpos n~1 = 2 * (2 ^ Zpos n * 2 ^ Zpos n).
Proof.
  rewrite <- Z.pow_add_r by lia. rewrite <- Z.pow_succ_r by lia. f_equal. lia.
Qed.

Lemma iter_shr_1_m (n : positive) : ∀ mrs,
  0 ≤ shr_m mrs → shr_m (SpecFloat.iter_pos shr_1 n mrs) = shr_m mrs / 2 ^ Zpos n.
Proof.
  induction n as [n IH|n IH|]; intros mrs Hm; cbn [SpecFloat.iter_pos].
  - pose proof (shr_1_m mrs Hm) as H1.
    assert (0 ≤ shr_m (shr_1 mrs)) as P1 by (rewrite H1; apply Z.div_pos; lia).
    pose proof (IH _ P1) as H2.
    assert (0 ≤ shr_m (SpecFloat.iter_pos shr_1 n (shr_1 mrs))) as P2
      by (rewrite H2; apply Z.div_pos; lia).
    rewrite (IH _ P2), H2, H1, pow2_xI.
    rewrite !Z.div_div by lia. f_equal; lia.
  - pose proof (IH _ Hm) as H1.
    assert (0 ≤ shr_m (SpecFloat.iter_pos shr_1 n mrs)) as P1
      by (rewrite H1; apply Z.div_pos; lia).
    rewrite (IH _ P1), H1, pow2_xO.
    rewrite !Z.div_div by lia. reflexivity.
  - rewrite shr_1_m by lia. reflexivity.
Qed.

Lemma round_nearest_even_bounds (m : Z) (l : location) :
  m ≤ round_nearest_even m l ≤ m + 1.
Proof.
  destruct l as [|[]]; simpl; try lia. destruct (Z.even m); lia.
Qed.

Lemma fx_eq (d : Z) : fx d = Z.max (d - 24) (-149).
Proof. reflexivity. Qed.

Lemma shr_nonpos (mrs : shr_record) (e n : Z) : n ≤ 0 → shr mrs e n = (mrs, e).
Proof. destruct n; try reflexivity. lia. Qed.

Lemma digits2_iter_xO (m d : positive) :
  Zpos (digits2_pos (Pos.iter xO m d)) = Zpos (digits2_pos m) + Zpos d.
Proof.
  induction d using Pos.peano_ind.
  - simpl. lia.
  - rewrite Pos.iter_succ. simpl. rewrite Pos2Z.inj_succ, IHd. lia.
Qed.

Lemma digits2_le (p : positive) (d : Z) : Zpos p < 2 ^ d → Zpos (digits2_pos p) ≤ d.
Proof.
  intros Hp. pose proof (digits2_bounds p) as [Hlo _].
  destruct (Z.le_gt_cases (Zpos (digits2_pos p)) d) as [|Hgt]; [assumption|].
  assert (2 ^ d ≤ 2 ^ (Zpos (digits2_pos p) - 1)); [|lia].
  destruct (Z.le_gt_cases 0 d).
  - apply Z.pow_le_mono_r; lia.
  - rewrite (Z.pow_neg_r 2 d) by lia. apply Z.pow_nonneg. lia.
Qed.

Lemma binary_round_aux_noshift (m : positive) (e : Z) :
  fx (Zpos (digits2_pos m) + e) ≤ e →
  binary_round_aux 24 128 false (Zpos m) e loc_Exact =
  if e <=? 104 then S754_finite false m e else S754_infinity false.
Proof.
  intros Hfx. unfold binary_round_aux, shr_fexp. cbn [Zdigits2 shr_record_of_loc].
  fold fx. rewrite shr_nonpos by lia.
  cbn [shr_m loc_of_shr_record round_nearest_even Zdigits2 shr_record_of_loc].
  rewrite shr_nonpos by lia. cbn [shr_m]. reflexivity.
Qed.

Lemma binary_round_aux_shift (M : positive) (e : Z) (n : positive) :
  fx (Zpos (digits2_pos M) + e) - e = Zpos n →
  ∃ m2 : Z,
    Zpos M / 2 ^ Zpos n ≤ m2 ≤ Zpos M / 2 ^ Zpos n + 1 ∧
    m2 ≤ 2 ^ 24 ∧
    binary_round_aux 24 128 false (Zpos M) e loc_Exact =
    match m2 with
    | Z0 => S754_zero false
    | Zpos q =>
        if (q =? 16777216)%positive
        then (if e + Zpos n + 1 <=? 104
              then S754_finite false 8388608 (e + Zpos n + 1)
              else S754_infinity false)
        else (if e + Zpos n <=? 104
              then S754_finite false q (e + Zpos n)
              else S754_infinity false)
    | Zneg _ => S754_nan
    end.
Proof.
  intros Hn.
  assert (Hm1 : 0 ≤ Zpos M / 2 ^ Zpos n) by (apply Z.div_pos; lia).
  assert (Hlt : Zpos M / 2 ^ Zpos n < 2 ^ 24).
  { apply Z.div_lt_upper_bound; [lia|].
    pose proof (digits2_bounds M) as [_ Hhi].
    rewrite fx_eq in Hn.
    assert (Zpos (digits2_pos M) ≤ 24 + Zpos n) as Hd by lia.
    rewrite <- Z.pow_add_r by lia.
    eapply Z.lt_le_trans; [exact Hhi|]. apply Z.pow_le_mono_r; lia. }
  unfold binary_round_aux, shr_fexp. cbn [Zdigits2 shr_record_of_loc].
  fold fx. rewrite Hn. cbn [shr].
  set (mrs := SpecFloat.iter_pos shr_1 n {| shr_m := Zpos M; shr_r := false; shr_s := false |}).
  assert (Hmrs : shr_m mrs = Zpos M / 2 ^ Zpos n).
  { unfold mrs. rewrite iter_shr_1_m; [reflexivity | simpl; lia]. }
  pose proof (round_nearest_even_bounds (shr_m mrs) (loc_of_shr_record mrs)) as Hr.
  set (m2 := round_nearest_even (shr_m mrs) (loc_of_shr_record mrs)) in *.
  rewrite Hmrs in Hr.
  exists m2. split; [exact Hr|]. split; [lia|].
  assert (Ht : -149 ≤ e + Zpos n) by (rewrite fx_eq in Hn; lia).
  destruct m2 as [|q|q]; [| |lia].
  - cbn [Zdigits2]. rewrite shr_nonpos by (rewrite fx_eq; lia). reflexivity.
  - cbn [Zdigits2]. destruct (Pos.eqb_spec q 16777216) as [->|Hq].
    + replace (fx (Zpos (digits2_pos 16777216) + (e + Zpos n)) - (e + Zpos n)) with 1
        by (rewrite fx_eq; simpl digits2_pos; lia).
      reflexivity.
    + assert (Zpos q < 2 ^ 24) as Hq24.
      { change (2 ^ 24) with 16777216 in *. assert (Zpos q ≠ 16777216) by congruence. lia. }
      pose proof (digits2_le q 24 Hq24).
      rewrite shr_nonpos by (rewrite fx_eq; lia). reflexivity.
Qed.

Lemma SFleb_pos_finite (m1 m2 : positive) (e1 e2 : Z) :
  e1 < e2 ∨ (e1 = e2 ∧ Zpos m1 ≤ Zpos m2) →
  SFleb (S754_finite false m1 e1) (S754_finite false m2 e2) = true.
Proof.
  unfold SFleb, SFcompare. intros [Hlt | [-> Hle]].
  - rewrite (proj2 (Z.compare_lt_iff e1 e2) Hlt). reflexivity.
  - rewrite Z.compare_refl.
    change (Pos.compare_cont Eq m1 m2) with (Pos.compare m1 m2).
    destruct (Pos.compare_spec m1 m2); try reflexivity. lia.
Qed.

Lemma pow2_exponent_lt (a b c X Y : Z) :
  0 ≤ a → 0 ≤ b → 0 ≤ c →
  2 ^ a ≤ X → X * 2 ^ b < Y * 2 ^ c → Y < 2 ^ 24 → a + b < 24 + c.
Proof.
  intros Ha Hb Hc HX HXY HY.
  apply (Z.pow_lt_mono_r_iff 2); [lia | lia |].
  rewrite !Z.pow_add_r by lia.
  assert (0 < 2 ^ b) by (apply Z.pow_pos_nonneg; lia).
  assert (0 < 2 ^ c) by (apply Z.pow_pos_nonneg; lia).
  nia.
Qed.

Lemma binary_round_below (M B : positive) (e eB lo : Z) :
  Zpos (digits2_pos B) = 24 → -149 ≤ eB ≤ 104 →
  lo ≤ e → lo ≤ eB →
  Zpos M * 2 ^ (e - lo) < Zpos B * 2 ^ (eB - lo) →
  SFleb (S754_zero false) (binary_round 24 128 false M e) = true ∧
  SFleb (binary_round 24 128 false M e) (S754_finite false B eB) = true.
Proof.
  intros HB HeB Hlo1 Hlo2 Hlt.
  pose proof (digits2_bounds M) as [HMlo HMhi].
  pose proof (digits2_bounds B) as [HBlo HBhi]. rewrite HB in HBlo, HBhi.
  set (D := Zpos (digits2_pos M)) in *.
  assert (HD : D + e - 24 ≤ eB).
  { assert (D - 1 + (e - lo) < 24 + (eB - lo)); [|lia].
    apply (pow2_exponent_lt _ _ _ (Zpos M) (Zpos B)); try lia; assumption. }
  assert (Hpe : 0 < 2 ^ (e - lo)) by (apply Z.pow_pos_nonneg; lia).
  unfold binary_round. fold D. fold fx.
  assert (Ht : fx (D + e) ≤ eB) by (rewrite fx_eq; lia).
  assert (Ht' : -149 ≤ fx (D + e)) by (rewrite fx_eq; lia).
  unfold shl_align. destruct (fx (D + e) - e) as [|n|d] eqn:Hsh.
  - (* already aligned *)
    rewrite binary_round_aux_noshift by (fold D; lia).
    destruct (Z.leb_spec e 104); [|lia].
    split; [reflexivity|]. apply SFleb_pos_finite.
    destruct (Z.eq_dec e eB) as [->|]; [right|left; lia].
    split; [reflexivity|]. nia.
  - (* the mantissa is shifted right and rounded *)
    destruct (binary_round_aux_shift M e n) as (m2 & Hm2 & Hm2' & ->);
      [fold D; exact Hsh|].
    assert (Hte : e + Zpos n = fx (D + e)) by lia.
    assert (Hfit : e + Zpos n = eB → m2 ≤ Zpos B).
    { intros Heq. assert (Zpos M / 2 ^ Zpos n < Zpos B); [|lia].
      apply Z.div_lt_upper_bound; [lia|].
      replace (eB - lo) with (Zpos n + (e - lo)) in Hlt by lia.
      rewrite Z.pow_add_r in Hlt by lia. nia. }
    assert (0 ≤ Zpos M / 2 ^ Zpos n) by (apply Z.div_pos; lia).
    destruct m2 as [|q|q]; [split; reflexivity| |lia].
    destruct (Pos.eqb_spec q 16777216) as [->|Hq].
    + assert (e + Zpos n < eB).
      { destruct (Z.eq_dec (e + Zpos n) eB) as [Heq|]; [|lia].
        specialize (Hfit Heq). change (2 ^ 24) with 16777216 in HBhi. lia. }
      destruct (Z.leb_spec (e + Zpos n + 1) 104); [|lia].
      split; [reflexivity|]. apply SFleb_pos_finite.
      destruct (Z.eq_dec (e + Zpos n + 1) eB) as [<-|]; [right|left; lia].
      split; [reflexivity|]. change (2 ^ (24 - 1)) with 8388608 in HBlo. lia.
    + destruct (Z.leb_spec (e + Zpos n) 104); [|lia].
      split; [reflexivity|]. apply SFleb_pos_finite.
      destruct (Z.eq_dec (e + Zpos n) eB) as [Heq|]; [right|left; lia].
      split; [exact Heq | apply Hfit; exact Heq].
  - (* the mantissa is shifted left *)
    assert (Hd : Zpos d = e - fx (D + e)) by lia.
    rewrite binary_round_aux_noshift
      by (rewrite digits2_iter_xO; fold D; rewrite Hd;
          replace (D + (e - fx (D + e)) + fx (D + e)) with (D + e) by lia; lia).
    destruct (Z.leb_spec (fx (D + e)) 104); [|lia].
    split; [reflexivity|]. apply SFleb_pos_finite.
    destruct (Z.eq_dec (fx (D + e)) eB) as [Heq|]; [right|left; lia].
    split; [exact Heq|]. rewrite iter_xO, Hd, Heq.
    replace (e - lo) with (e - eB + (eB - lo)) in Hlt by lia.
    rewrite Z.pow_add_r in Hlt by lia.
    assert (0 < 2 ^ (eB - lo)) by (apply Z.pow_pos_nonneg; lia).
    nia.
Qed.

Lemma valid_digits (s : bool) (m : positive) (e : Z) :
  valid_binary 24 128 (S754_finite s m e) = true →
  fx (Zpos (digits2_pos m) + e) = e.
Proof.
  unfold valid_binary, bounded, canonical_mantissa. fold fx.
  intros H. apply andb_prop in H as [H _]. apply Z.eqb_eq in H. exact H.
Qed.

Lemma add_TwoPi_range (mx : positive) (ex : Z) :
  valid_binary 24 128 (S754_finite true mx ex) = true →
  SFleb (SFopp TwoPi) (S754_finite true mx ex) = true →
  inClosedTurn (F32.add (S754_finite true mx ex) TwoPi) = true.
Proof.
  intros Hvalid Hle. apply valid_digits in Hvalid. rewrite fx_eq in Hvalid.
  pose proof (digits2_bounds mx) as [_ Hmx].
  assert (Hmx24 : Zpos mx < 2 ^ 24).
  { eapply Z.lt_le_trans; [exact Hmx|]. apply Z.pow_le_mono_r; lia. }
  change (2 ^ 24) with 16777216 in Hmx24.
  assert (Hex : ex < -21 ∨ (ex = -21 ∧ Zpos mx ≤ 13176795)).
  { unfold SFleb, SFopp, TwoPi, SFcompare in Hle.
    destruct (Z.compare_spec (-21) ex) as [<-| |]; [right|discriminate|left; lia].
    split; [reflexivity|].
    change (Pos.compare_cont Eq 13176795 mx) with (Pos.compare 13176795 mx) in Hle.
    destruct (Pos.compare_spec 13176795 mx); simpl in Hle; try discriminate; lia. }
  unfold F32.add, F32.prec, F32.emax, SFadd, TwoPi. rewrite Z.min_l by lia.
  unfold shl_align at 1. rewrite Z.sub_diag. cbn [fst cond_Zopp].
  unfold inClosedTurn, F32.le, F32.zero, TwoPi.
  unfold shl_align. destruct (ex - -21) as [|p|d] eqn:Hsh; [|lia|].
  - cbn [fst]. assert (ex = -21) by lia. subst ex.
    destruct (- Zpos mx + 13176795) as [|M|M] eqn:HM; [reflexivity| |lia].
    cbn [binary_normalize].
    destruct (binary_round_below M 13176795 (-21) (-21) (-21)) as [H0 H1];
      try reflexivity; try lia.
    rewrite H0, H1. reflexivity.
  - cbn [fst]. rewrite iter_xO.
    assert (Hd : Zpos d = -21 - ex) by lia.
    assert (2 ≤ 2 ^ Zpos d) by (apply (Z.pow_le_mono_r 2 1); lia).
    destruct (- Zpos mx + 13176795 * 2 ^ Zpos d) as [|M|M] eqn:HM; [reflexivity| |lia].
    cbn [binary_normalize].
    destruct (binary_round_below M 13176795 ex (-21) ex) as [H0 H1];
      try reflexivity; try lia.
    { rewrite Z.sub_diag, <- Hd. change (2 ^ 0) with 1. lia. }
    rewrite H0, H1. reflexivity.
Qed.

Lemma sub_TwoPi_range (mx : positive) (ex : Z) :
  valid_binary 24 128 (S754_finite false mx ex) = true →
  SFltb TwoPi (S754_finite false mx ex) = true →
  SFltb (S754_finite false mx ex) twoTurns = true →
  inClosedTurn (F32.sub (S754_finite false mx ex) TwoPi) = true.
Proof.
  intros Hvalid Hgt Hlt. apply valid_digits in Hvalid. rewrite fx_eq in Hvalid.
  pose proof (digits2_bounds mx) as [Hlo Hhi].
  assert (Hex : (ex = -21 ∧ 13176795 < Zpos mx) ∨ (ex = -20 ∧ Zpos mx < 13176795)).
  { unfold SFltb, TwoPi, twoTurns, SFcompare in Hgt, Hlt.
    change (Pos.compare_cont Eq 13176795 mx) with (Pos.compare 13176795 mx) in Hgt.
    change (Pos.compare_cont Eq mx 13176795) with (Pos.compare mx 13176795) in Hlt.
    destruct (Z.compare_spec (-21) ex) as [<-| |]; [left|right|discriminate].
    - split; [reflexivity|].
      destruct (Pos.compare_spec 13176795 mx); try discriminate; lia.
    - destruct (Z.compare_spec ex (-20)) as [->| |]; [|lia|discriminate].
      split; [reflexivity|].
      destruct (Pos.compare_spec mx 13176795); try discriminate; lia. }
  assert (Hd24 : Zpos (digits2_pos mx) = 24) by lia.
  rewrite Hd24 in Hlo, Hhi.
  change (2 ^ (24 - 1)) with 8388608 in Hlo. change (2 ^ 24) with 16777216 in Hhi.
  unfold inClosedTurn, F32.le, F32.zero, F32.sub, F32.prec, F32.emax, SFsub, TwoPi.
  destruct Hex as [[-> Hm] | [-> Hm]].
  - change (Z.min (-21) (-21)) with (-21).
    change (shl_align mx (-21) (-21)) with (mx, -21).
    change (shl_align 13176795 (-21) (-21)) with (13176795%positive, -21).
    cbn [fst cond_Zopp].
    destruct (Zpos mx - 13176795) as [|M|M] eqn:HM; [lia| |lia].
    cbn [binary_normalize].
    destruct (binary_round_below M 13176795 (-21) (-21) (-21)) as [H0 H1];
      try reflexivity; try lia.
    rewrite H0, H1. reflexivity.
  - change (Z.min (-20) (-21)) with (-21).
    change (shl_align mx (-20) (-21)) with (mx~0%positive, -21).
    change (shl_align 13176795 (-21) (-21)) with (13176795%positive, -21).
    cbn [fst cond_Zopp]. change (Zpos mx~0) with (2 * Zpos mx).
    destruct (2 * Zpos mx - 13176795) as [|M|M] eqn:HM; [lia| |lia].
    cbn [binary_normalize].
    destruct (binary_round_below M 13176795 (-21) (-21) (-21)) as [H0 H1];
      try reflexivity; try lia.
    rewrite H0, H1. reflexivity.
Qed.

(** ** Bounds3d *)

(** C9, as amended. The default box has [min] at plus infinity and [max]
    at minus infinity in every component; extending it by a box [b] without
    NaN coordinates gives [b], extending it by a point [p] without NaN
    coordinates gives the box with [min = max = p]; and an extension takes
    [std::min] of the minima and [std::max] of the maxima componentwise. *)
Theorem Bounds3d_default_extend (b : Bounds3d.t) (p : Vec3fa.t)
    (Hb : Bounds3d.has_nan b = false) (Hp : Vec3fa.has_nan p = false) :
  Bounds3d.default =
    Bounds3d.mk (Vec3fa.mk F32.infinity F32.infinity F32.infinity)
                (Vec3fa.mk F32.neg_infinity F32.neg_infinity F32.neg_infinity) ∧
  Bounds3d.extend Bounds3d.default b = b ∧
  Bounds3d.extend_point Bounds3d.default p = Bounds3d.mk p p ∧
  (∀ a, Bounds3d.extend a b =
        Bounds3d.mk (Vec3fa.min (Bounds3d.min a) (Bounds3d.min b))
                    (Vec3fa.max (Bounds3d.max a) (Bounds3d.max b))) ∧
  (∀ a, Bounds3d.extend_point a p =
        Bounds3d.mk (Vec3fa.min (Bounds3d.min a) p)
                    (Vec3fa.max (Bounds3d.max a) p)).
Proof.
  split; [reflexivity|].
  apply orb_false_elim in Hb as [Hlo Hhi].
  apply has_nan_false in Hlo as (Hlx & Hly & Hlz).
  apply has_nan_false in Hhi as (Hhx & Hhy & Hhz).
  apply has_nan_false in Hp as (Hpx & Hpy & Hpz).
  destruct b as [[lx ly lz] [hx hy hz]], p as [px py pz]; simpl in *.
  repeat split.
  - unfold Bounds3d.extend; simpl.
    change (F32.opp F32.infinity) with F32.neg_infinity.
    rewrite !min_infinity, !max_neg_infinity by assumption. reflexivity.
  - unfold Bounds3d.extend_point; simpl.
    change (F32.opp F32.infinity) with F32.neg_infinity.
    rewrite !min_infinity, !max_neg_infinity by assumption. reflexivity.
Qed.

Lemma Bounds3d_default_extend_witness :
  Bounds3d.extend Bounds3d.default (Bounds3d.mk vzero vone) = Bounds3d.mk vzero vone ∧
  Bounds3d.extend_point Bounds3d.default vhalf = Bounds3d.mk vhalf vhalf.
Proof.
  pose proof (Bounds3d_default_extend (Bounds3d.mk vzero vone) vhalf
                eq_refl eq_refl) as (_ & Hbox & Hpoint & _).
  split; [exact Hbox | exact Hpoint].
Defined.

(** C9, as stated, fails on a NaN coordinate: [std::min(inf, NaN)] is
    [inf] and [std::max(-inf, NaN)] is [-inf], so the NaN is dropped. *)
Lemma Bounds3d_default_extend_nan :
  let p := Vec3fa.mk F32.quiet_NaN F32.zero F32.zero in
  Bounds3d.extend Bounds3d.default (Bounds3d.mk p p) ≠ Bounds3d.mk p p ∧
  Bounds3d.extend_point Bounds3d.default p ≠ Bounds3d.mk p p ∧
  Bounds3d.extend_point Bounds3d.default p =
    Bounds3d.mk (Vec3fa.mk F32.infinity F32.zero F32.zero)
                (Vec3fa.mk F32.neg_infinity F32.zero F32.zero).
Proof. repeat split; discriminate. Qed.

(** ** Vec3fa *)

(** X22. What [maxi] computes: on a vector without NaN the component it
    selects is below or equal to all three, that is, it is a minimum. *)
Lemma maxi_selects_minimum (v : Vec3fa.t) :
  Vec3fa.has_nan v = false →
  ∃ m, Vec3fa.maxc v = Some m ∧
       F32.le m (Vec3fa.x v) = true ∧ F32.le m (Vec3fa.y v) = true ∧
       F32.le m (Vec3fa.z v) = true.
Proof.
  intros Hv. apply has_nan_false in Hv as (Hx & Hy & Hz).
  destruct v as [x y z]. unfold Vec3fa.maxc, Vec3fa.maxi.
  cbn [Vec3fa.x Vec3fa.y Vec3fa.z] in *.
  destruct (F32.lt x y) eqn:Hxy.
  - destruct (F32.lt x z) eqn:Hxz; eexists; (split; [reflexivity|]).
    + repeat split; auto using le_refl, lt_le.
    + pose proof (not_lt_le _ _ Hx Hz Hxz) as Hzx.
      repeat split; eauto using le_refl, lt_le, le_trans.
  - pose proof (not_lt_le _ _ Hx Hy Hxy) as Hyx.
    destruct (F32.lt y z) eqn:Hyz; eexists; (split; [reflexivity|]).
    + repeat split; auto using le_refl, lt_le.
    + pose proof (not_lt_le _ _ Hy Hz Hyz) as Hzy.
      repeat split; eauto using le_refl, le_trans.
Qed.

(** C10 fails on the code: on (1, 2, 3) [maxi] answers 0, the index of the
    smallest component, and [maxc] answers 1 although the component at
    index 2 is larger. *)
Theorem maxi_picks_smallest_of_1_2_3 :
  let v := Vec3fa.mk F32.one F32.two F32.three in
  Vec3fa.maxi v = 0 ∧ Vec3fa.maxc v = Some F32.one ∧
  Vec3fa.c v 2 = Some F32.three ∧ F32.lt F32.one F32.three = true.
Proof. repeat split. Qed.

(** ** Ray *)

(** C3 fails on the code: the constructor stores the direction it is
    given. For the direction (2, 0, 0) the stored direction has squared
    length 4, where [Vec3fa::normalized] would have given length 1. *)
Theorem Ray_ctor_stores_direction_unchanged :
  (∀ o d, Ray.direction (Ray.ctor o d) = d) ∧
  let d := Vec3fa.mk F32.two F32.zero F32.zero in
  Vec3fa.squaredNorm (Ray.direction (Ray.ctor vzero d)) = F32.four ∧
  F32.eqb F32.four F32.one = false ∧
  Vec3fa.squaredNorm (Vec3fa.normalized d) = F32.one.
Proof. repeat split. Qed.

(** ** The strided worker loop *)

Lemma strideIndices_nil (i N W : Z) :
  0 < W → N ≤ i → strideIndices i N W = [].
Proof.
  intros HW Hi. unfold strideIndices. rewrite seqZ_nil; [reflexivity|].
  assert ((N - i + W - 1) / W < 1); [|lia].
  apply Z.div_lt_upper_bound; lia.
Qed.

Lemma strideIndices_cons (i N W : Z) :
  0 < W → i < N → strideIndices i N W = i :: strideIndices (i + W) N W.
Proof.
  intros HW Hi. unfold strideIndices.
  replace (N - i + W - 1) with (N - (i + W) + W - 1 + 1 * W) by lia.
  rewrite Z.div_add by lia.
  set (n := (N - (i + W) + W - 1) / W).
  assert (0 ≤ n) by (apply Z.div_pos; lia).
  rewrite seqZ_cons by lia. simpl. f_equal; [lia|].
  replace (Z.pred (n + 1)) with n by lia.
  change (Z.succ 0) with (1 + 0). rewrite <- fmap_add_seqZ, <- list_fmap_compose.
  apply list_fmap_ext. intros _ k _. simpl. lia.
Qed.

Lemma elem_of_strideIndices (i N W r : Z) :
  0 < W → r ∈ strideIndices i N W ↔ i ≤ r < N ∧ (r - i) mod W = 0.
Proof.
  intros HW. unfold strideIndices. rewrite list_elem_of_fmap.
  setoid_rewrite elem_of_seqZ. split.
  - intros (k & -> & Hk).
    assert (k * W < N - i); [|split; [nia|]].
    + assert (k + 1 ≤ (N - i + W - 1) / W) as Hlt by lia.
      pose proof (Z.mul_div_le (N - i + W - 1) W HW).
      nia.
    + replace (i + k * W - i) with (k * W) by lia. apply Z.mod_mul. lia.
  - intros ([Hlo Hhi] & Hmod).
    apply Z.mod_divide in Hmod as [k Hk]; [|lia].
    exists k. split; [lia|].
    assert (0 ≤ k) by nia. split; [lia|].
    assert (k + 1 ≤ (N - i + W - 1) / W); [|lia].
    apply Z.div_le_lower_bound; [lia|]. nia.
Qed.

Lemma elem_of_strideIndices_mod (i N W r : Z) :
  0 < W → 0 ≤ i < W →
  r ∈ strideIndices i N W ↔ 0 ≤ r < N ∧ r mod W = i.
Proof.
  intros HW Hi. rewrite elem_of_strideIndices by done. split.
  - intros ([Hlo Hhi] & Hmod). split; [lia|].
    apply Z.mod_divide in Hmod as [k Hk]; [|lia].
    replace r with (i + k * W) by lia.
    rewrite Z.mod_add by lia. apply Z.mod_small. lia.
  - intros ([Hlo Hhi] & Hmod).
    pose proof (Z.div_mod r W ltac:(lia)) as Hr.
    assert (0 ≤ r / W) by (apply Z.div_pos; lia).
    split; [nia|].
    replace (r - i) with ((r / W) * W) by lia. apply Z.mod_mul. lia.
Qed.

Lemma NoDup_strideIndices (i N W : Z) : 0 < W → NoDup (strideIndices i N W).
Proof.
  intros HW. unfold strideIndices. apply NoDup_fmap_2; [|apply NoDup_seqZ].
  intros a b Hab. nia.
Qed.

Lemma wrap32_small (n : Z) : 0 ≤ n < 2 ^ 32 → wrap32 n = n.
Proof. intros Hn. unfold wrap32. apply Z.mod_small. exact Hn. Qed.

Lemma workerLoop_fold {S : Type} (body : Z → S → option S) (N W : Z) :
  0 < W → N + W ≤ 2 ^ 32 →
  ∀ (fuel : nat) (r : Z) (s : S),
    0 ≤ r → Z.max 0 (N - r) < Z.of_nat fuel →
    workerLoop fuel body N W r s = foldOpt body (strideIndices r N W) s.
Proof.
  intros HW HN. induction fuel as [|fuel IH]; intros r s Hr Hfuel; [lia|].
  simpl. destruct (Z.ltb_spec r N) as [Hlt|Hge].
  - rewrite strideIndices_cons by lia. simpl.
    destruct (body r s) as [s'|]; [|reflexivity]. simpl.
    rewrite wrap32_small by lia. apply IH; lia.
  - rewrite strideIndices_nil by lia. reflexivity.
Qed.

Lemma workerLoop_stride {S : Type} (body : Z → S → option S) (N W i : Z) (s : S) :
  0 < W → 0 ≤ N → N + W ≤ 2 ^ 32 → 0 ≤ i →
  workerLoop (loopFuel N) body N W i s = foldOpt body (strideIndices i N W) s.
Proof.
  intros HW HN0 HN Hi. apply workerLoop_fold; try done.
  unfold loopFuel. lia.
Qed.

(** C8. With [W = numWorkers] workers and [N] rays (an array the 32-bit
    counter can step through, [N + W <= 2^32]), the loop of each codelet
    (ray generation, path tracing, shadow tracing, and the two escaped-ray
    phases) run by worker [i] executes its body at exactly the indices
    [i, i + W, i + 2 W, ...] below [N], once each and in this order. These
    are the indices below [N] congruent to [i] modulo [W], so every index
    below [N] belongs to exactly one worker. *)
Theorem strided_partition `{Externs} (N : Z)
    (HW : 0 < numWorkers) (Hfit : N + numWorkers ≤ 2 ^ 32) :
  (∀ i, 0 ≤ i < numWorkers →
     (∀ w h aa fov st, size (fst st) = N →
        sampleCameraRays i w h aa fov st =
        let '(s, c) := sincos (F32.div fov F32.two) in
        foldOpt (sampleCameraRay w h aa (F32.div s c))
                (strideIndices i N numWorkers) st) ∧
     (∀ scene st, size (fst st) = N →
        PathTrace.tracePaths scene i st =
        foldOpt (PathTrace.tracePath scene) (strideIndices i N numWorkers) st) ∧
     (∀ scene amb lx ly lz rays, size rays = N →
        ShadowTrace.compute scene amb [lx; ly; lz] i rays =
        foldOpt (ShadowTrace.body scene amb (Vec3fa.mk lx ly lz))
                (strideIndices i N numWorkers) rays) ∧
     (∀ results az out, size results = N →
        PreProcessEscapedRays.compute results az i out =
        foldOpt (PreProcessEscapedRays.body results az)
                (strideIndices i N numWorkers) out) ∧
     (∀ bgr results, size results = N →
        PostProcessEscapedRays.compute bgr i results =
        foldOpt (PostProcessEscapedRays.body bgr)
                (strideIndices i N numWorkers) results)) ∧
  (∀ i r, 0 ≤ i < numWorkers →
     r ∈ strideIndices i N numWorkers ↔ 0 ≤ r < N ∧ r mod numWorkers = i) ∧
  (∀ i, NoDup (strideIndices i N numWorkers)) ∧
  (∀ r, 0 ≤ r < N →
     ∃ i, (0 ≤ i < numWorkers ∧ r ∈ strideIndices i N numWorkers) ∧
          ∀ j, 0 ≤ j < numWorkers → r ∈ strideIndices j N numWorkers → j = i).
Proof.
  split; [|split; [|split]].
  - intros i Hi. repeat split.
    + intros w h aa fov st <-. unfold sampleCameraRays.
      destruct (sincos _) as [s c].
      apply workerLoop_stride; unfold size in *; lia.
    + intros scene st <-. unfold PathTrace.tracePaths.
      apply workerLoop_stride; unfold size in *; lia.
    + intros scene amb lx ly lz rays <-. unfold ShadowTrace.compute. simpl.
      apply workerLoop_stride; unfold size in *; lia.
    + intros results az out <-. unfold PreProcessEscapedRays.compute.
      apply workerLoop_stride; unfold size in *; lia.
    + intros bgr results <-. unfold PostProcessEscapedRays.compute.
      apply workerLoop_stride; unfold size in *; lia.
  - intros i r Hi. apply elem_of_strideIndices_mod; lia.
  - intros i. apply NoDup_strideIndices. exact HW.
  - intros r Hr. exists (r mod numWorkers).
    pose proof (Z.mod_pos_bound r numWorkers HW) as Hmod.
    split; [split; [lia|]|].
    + apply elem_of_strideIndices_mod; lia.
    + intros j Hj Hin. apply elem_of_strideIndices_mod in Hin; lia.
Qed.

Lemma strided_partition_witness :
  strideIndices 1 14 6 = [1; 7; 13] ∧
  (13 ∈ strideIndices 1 14 6 ↔ 0 ≤ 13 < 14 ∧ 13 mod 6 = 1) ∧
  PostProcessEscapedRays.compute (H := fixedExterns None false) [] 1
    [cameraResult; cameraResult]
  = foldOpt (PostProcessEscapedRays.body []) (strideIndices 1 2 6)
      [cameraResult; cameraResult].
Proof.
  split; [reflexivity|]. split.
  - pose proof (@strided_partition (fixedExterns None false) 14) as Hpart.
    simpl in Hpart.
    destruct Hpart as (_ & Hmem & _); [lia | lia |].
    apply (Hmem 1 13). lia.
  - pose proof (@strided_partition (fixedExterns None false) 2) as Hpart.
    simpl in Hpart.
    destruct Hpart as (Hloops & _); [lia | lia |].
    destruct (Hloops 1) as (_ & _ & _ & _ & Hpost); [lia|].
    apply Hpost. reflexivity.
Defined.

(** ** Loops whose body touches only its own index *)

Lemma foldOpt_frame {S B : Type} (look : S → Z → B) (Inv : S → Prop)
    (body : Z → S → option S) (g : Z → B) :
  ∀ (l : list Z) (s : S),
    NoDup l → Inv s →
    (∀ r s0, r ∈ l → Inv s0 → look s0 r = look s r →
       ∃ s1, body r s0 = Some s1 ∧ Inv s1 ∧ look s1 r = g r ∧
             ∀ j, j ≠ r → look s1 j = look s0 j) →
    ∃ s', foldOpt body l s = Some s' ∧ Inv s' ∧
          ∀ j, look s' j = if decide (j ∈ l) then g j else look s j.
Proof.
  induction l as [|r l IH]; intros s Hnd Hinv Hbody.
  - exists s. split; [reflexivity|]. split; [assumption|]. intros j.
    destruct (decide (j ∈ [])) as [Hin|_]; [|reflexivity].
    apply elem_of_nil in Hin. contradiction.
  - apply NoDup_cons in Hnd as [Hr Hnd].
    destruct (Hbody r s) as (s1 & Hs1 & Hinv1 & Hat & Hframe);
      [apply elem_of_cons; auto | assumption | reflexivity |].
    destruct (IH s1 Hnd Hinv1) as (s' & Hs' & Hinv' & Hlook).
    { intros r' s0 Hr' Hinv0 Heq. apply Hbody; [|assumption|].
      - apply elem_of_cons. auto.
      - rewrite Heq. apply Hframe. intros ->. contradiction. }
    exists s'. simpl. rewrite Hs1. simpl.
    split; [assumption|]. split; [assumption|].
    intros j. rewrite Hlook.
    destruct (decide (j = r)) as [->|Hne].
    + destruct (decide (r ∈ l)); [contradiction|].
      destruct (decide (r ∈ r :: l)) as [_|Hn]; [assumption|].
      exfalso. apply Hn, elem_of_cons. auto.
    + destruct (decide (j ∈ l)) as [Hin|Hnin].
      * destruct (decide (j ∈ r :: l)) as [_|Hn]; [reflexivity|].
        exfalso. apply Hn, elem_of_cons. auto.
      * destruct (decide (j ∈ r :: l)) as [Hin|_]; [|apply Hframe; assumption].
        apply elem_of_cons in Hin as [?|?]; contradiction.
Qed.

(** ** Arrays and flags *)

Lemma load_Some {A : Type} (a : list A) (i : Z) (x : A) :
  load a i = Some x ↔ 0 ≤ i < size a ∧ a !! Z.to_nat i = Some x.
Proof.
  unfold load, size. destruct (Z.leb_spec 0 i) as [Hi|Hi].
  - split.
    + intros Hx. pose proof (lookup_lt_Some _ _ _ Hx). split; [lia|assumption].
    + intros [_ Hx]. exact Hx.
  - split; [discriminate|]. intros [[? _] _]. lia.
Qed.

Lemma load_in_range {A : Type} (a : list A) (i : Z) :
  0 ≤ i < size a → ∃ x, load a i = Some x.
Proof.
  intros Hi. unfold load, size in *.
  destruct (Z.leb_spec 0 i) as [_|?]; [|lia].
  apply lookup_lt_is_Some_2. lia.
Qed.

Lemma store_in_range {A : Type} (a : list A) (i : Z) (x : A) :
  0 ≤ i < size a → store a i x = Some (<[Z.to_nat i := x]> a).
Proof.
  intros Hi. unfold store, size in *.
  destruct (Z.leb_spec 0 i); [|lia]. destruct (Z.ltb_spec i (Z.of_nat (length a))); [|lia].
  reflexivity.
Qed.

Lemma size_insert {A : Type} (a : list A) (n : nat) (x : A) :
  size (<[n := x]> a) = size a.
Proof. unfold size. rewrite length_insert. reflexivity. Qed.

Lemma load_insert_eq {A : Type} (a : list A) (i : Z) (x : A) :
  0 ≤ i < size a → load (<[Z.to_nat i := x]> a) i = Some x.
Proof.
  intros Hi. unfold load, size in *. destruct (Z.leb_spec 0 i); [|lia].
  apply list_lookup_insert_eq. lia.
Qed.

Lemma load_insert_ne {A : Type} (a : list A) (i j : Z) (x : A) :
  0 ≤ i → j ≠ i → load (<[Z.to_nat i := x]> a) j = load a j.
Proof.
  intros Hi Hne. unfold load. destruct (Z.leb_spec 0 j); [|reflexivity].
  apply list_lookup_insert_ne. lia.
Qed.

Lemma test_ESCAPED (h : HitRecord.t) :
  HitRecord.test h HitRecord.ESCAPED = escaped h.
Proof.
  unfold HitRecord.test, escaped, HitRecord.ESCAPED.
  set (f := HitRecord.flags h).
  assert (Z.land f 2 = if Z.testbit f 1 then 2 else 0) as ->.
  { apply Z.bits_inj'. intros n Hn. rewrite Z.land_spec.
    change 2 with (2 ^ 1) at 1. rewrite Z.pow2_bits_eqb by lia.
    destruct (Z.eqb_spec 1 n) as [<-|Hne].
    - destruct (Z.testbit f 1); reflexivity.
    - rewrite andb_false_r. destruct (Z.testbit f 1).
      + change 2 with (2 ^ 1). rewrite Z.pow2_bits_eqb by lia.
        symmetry. apply Z.eqb_neq. exact Hne.
      + symmetry. apply Z.bits_0. }
  destruct (Z.testbit f 1); reflexivity.
Qed.

Lemma raise_ESCAPED (h : HitRecord.t) :
  escaped (HitRecord.raise h HitRecord.ESCAPED) = true.
Proof.
  unfold escaped, HitRecord.raise, HitRecord.set_flags, HitRecord.ESCAPED.
  cbn [HitRecord.flags]. rewrite Z.lor_spec.
  change (Z.testbit 2 1) with true. apply orb_true_r.
Qed.

Lemma raise_ERROR (h : HitRecord.t) :
  errored (HitRecord.raise h HitRecord.ERROR) = true.
Proof.
  unfold errored, HitRecord.raise, HitRecord.set_flags, HitRecord.ERROR.
  cbn [HitRecord.flags]. rewrite Z.lor_spec.
  change (Z.testbit 1 0) with true. apply orb_true_r.
Qed.

(** ** Phase B: PostProcessEscapedRays *)

Lemma PostProcess_body_at (bgr : list (list float)) (r : Z)
    (a : list TraceResult.t) (res : TraceResult.t) :
  load a r = Some res →
  (escaped (TraceResult.h res) = true →
   ∃ blue green red rest, load bgr r = Some (blue :: green :: red :: rest)) →
  PostProcessEscapedRays.body bgr r a = Some (<[Z.to_nat r := postEntry bgr r res]> a).
Proof.
  intros Hres Hbgr. unfold PostProcessEscapedRays.body, postEntry.
  rewrite Hres. simpl. rewrite test_ESCAPED.
  apply load_Some in Hres as [Hr Hlook].
  destruct (escaped (TraceResult.h res)).
  - destruct Hbgr as (blue & green & red & rest & ->); [reflexivity|].
    simpl. apply store_in_range. exact Hr.
  - rewrite list_insert_id by exact Hlook. reflexivity.
Qed.

Lemma PostProcess_compute_lookup `{Externs} (bgr : list (list float)) (w : Z)
    (results : list TraceResult.t) :
  0 < numWorkers → 0 ≤ w → size results + numWorkers ≤ 2 ^ 32 →
  (∀ r res, r ∈ strideIndices w (size results) numWorkers →
     load results r = Some res → escaped (TraceResult.h res) = true →
     ∃ blue green red rest, load bgr r = Some (blue :: green :: red :: rest)) →
  ∃ results',
    PostProcessEscapedRays.compute bgr w results = Some results' ∧
    size results' = size results ∧
    ∀ j, load results' j =
         if decide (j ∈ strideIndices w (size results) numWorkers)
         then postEntry bgr j <$> load results j
         else load results j.
Proof.
  intros HW Hw Hfit Hbgr. unfold PostProcessEscapedRays.compute.
  rewrite workerLoop_stride by (unfold size in *; lia).
  apply (foldOpt_frame load (λ a, size a = size results)
           (PostProcessEscapedRays.body bgr)
           (λ j, postEntry bgr j <$> load results j)).
  - apply NoDup_strideIndices. exact HW.
  - reflexivity.
  - intros r a Hin Hsize Hsame.
    pose proof Hin as Hr. apply elem_of_strideIndices in Hr as [Hr _]; [|exact HW].
    destruct (load_in_range results r) as [res Hres]; [lia|].
    exists (<[Z.to_nat r := postEntry bgr r res]> a).
    split; [|split; [|split]].
    + apply PostProcess_body_at; [congruence|]. intros Hesc. eauto.
    + rewrite size_insert. exact Hsize.
    + rewrite Hres. simpl. apply load_insert_eq. lia.
    + intros j Hne. apply load_insert_ne; [lia | exact Hne].
Qed.

(** C4. Phase B, run by worker [w] on the result array: for every entry in
    the worker's share, if the ESCAPED flag (bit 1 of [flags]) is set, the
    sample, given as blue, green, red, is reordered to red, green, blue,
    multiplied componentwise by the entry's throughput and added to the
    entry's colour; if the flag is not set the entry is left as it is.
    Entries of other workers are not touched. The sample buffer must hold
    three channels for every escaped entry. *)
Theorem PostProcess_adds_weighted_sample `{Externs} (bgr : list (list float))
    (w : Z) (results : list TraceResult.t)
    (HW : 0 < numWorkers) (Hw : 0 ≤ w < numWorkers)
    (Hfit : size results + numWorkers ≤ 2 ^ 32)
    (Hbgr : ∀ r res, r mod numWorkers = w → load results r = Some res →
              escaped (TraceResult.h res) = true →
              ∃ blue green red rest,
                load bgr r = Some (blue :: green :: red :: rest)) :
  ∃ results',
    PostProcessEscapedRays.compute bgr w results = Some results' ∧
    size results' = size results ∧
    ∀ r res, load results r = Some res →
      (r mod numWorkers = w → escaped (TraceResult.h res) = true →
       ∀ blue green red rest,
         load bgr r = Some (blue :: green :: red :: rest) →
         load results' r =
         Some (TraceResult.mk
                 (Vec3fa.add (TraceResult.rgb res)
                    (Vec3fa.mul (HitRecord.throughput (TraceResult.h res))
                                (Vec3fa.mk red green blue)))
                 (TraceResult.p res) (TraceResult.h res))) ∧
      (r mod numWorkers = w → escaped (TraceResult.h res) = false →
       load results' r = Some res) ∧
      (r mod numWorkers ≠ w → load results' r = Some res).
Proof.
  destruct (PostProcess_compute_lookup bgr w results)
    as (results' & Hrun & Hsize & Hlook); [lia..| |].
  { intros r res Hin. apply elem_of_strideIndices_mod in Hin as [_ Hmod]; [|lia..].
    apply Hbgr. exact Hmod. }
  exists results'. split; [exact Hrun|]. split; [exact Hsize|].
  intros r res Hres. pose proof Hres as Hr. apply load_Some in Hr as [Hr _].
  specialize (Hlook r). rewrite Hres in Hlook. simpl in Hlook.
  destruct (decide (r ∈ strideIndices w (size results) numWorkers)) as [Hin|Hout].
  - apply elem_of_strideIndices_mod in Hin as [_ Hmod]; [|lia..].
    split; [|split].
    + intros _ Hesc blue green red rest Hv. rewrite Hlook.
      unfold postEntry. rewrite Hesc, Hv. reflexivity.
    + intros _ Hesc. rewrite Hlook. unfold postEntry. rewrite Hesc. reflexivity.
    + intros Hne. contradiction.
  - assert (r mod numWorkers ≠ w) as Hne.
    { intros Hmod. apply Hout. apply elem_of_strideIndices_mod; [lia..|].
      split; [exact Hr | exact Hmod]. }
    split; [|split]; [intros Hmod; contradiction.. | intros _; exact Hlook].
Qed.

Lemma PostProcess_adds_weighted_sample_witness :
  ∃ results',
    PostProcessEscapedRays.compute (H := fixedExterns None false)
      [[F32.one; F32.two; F32.three]; []] 0 [escapedResult; cameraResult]
    = Some results' ∧
    load results' 0 =
      Some (TraceResult.set_rgb escapedResult
              (Vec3fa.mk (F32.add F32.one (F32.mul F32.half F32.three))
                         (F32.add F32.one (F32.mul F32.half F32.two))
                         (F32.add F32.one (F32.mul F32.half F32.one)))) ∧
    load results' 1 = Some cameraResult.
Proof.
  destruct (@PostProcess_adds_weighted_sample (fixedExterns None false)
              [[F32.one; F32.two; F32.three]; []] 0 [escapedResult; cameraResult])
    as (results' & Hrun & _ & Hspec).
  - simpl. lia.
  - simpl. lia.
  - simpl. unfold size. simpl. lia.
  - intros r res Hmod Hres Hesc. apply load_Some in Hres as [Hr Hres].
    unfold size in Hr. simpl in Hr.
    assert (r = 0 ∨ r = 1) as [-> | ->] by lia.
    + exists F32.one, F32.two, F32.three, []. reflexivity.
    + simpl in Hres. injection Hres as <-. discriminate Hesc.
  - exists results'. split; [exact Hrun|]. split.
    + destruct (Hspec 0 escapedResult eq_refl) as (Hadd & _ & _).
      apply (Hadd eq_refl eq_refl F32.one F32.two F32.three []). reflexivity.
    + destruct (Hspec 1 cameraResult eq_refl) as (_ & _ & Hother).
      apply Hother. discriminate.
Defined.

(** ** Phase A: PreProcessEscapedRays *)

Lemma wrapPhi_in_range (phi : float) :
  inClosedTurn phi = true → PreProcessEscapedRays.wrapPhi phi = phi.
Proof.
  unfold inClosedTurn. intros Hphi. apply andb_prop in Hphi as [Hlo Hhi].
  unfold PreProcessEscapedRays.wrapPhi.
  rewrite (le_not_lt _ _ Hlo), (le_not_gt _ _ Hhi). reflexivity.
Qed.

(** Within one turn of the target interval the two range tests bring the
    longitude into the closed interval from 0 to [TwoPi]: the sum and the
    difference are rounded, and rounding does not cross [TwoPi]. *)
Lemma wrapPhi_range (phi : float) :
  F32.valid phi = true →
  F32.le (F32.opp TwoPi) phi = true → F32.le phi twoTurns = true →
  inClosedTurn (PreProcessEscapedRays.wrapPhi phi) = true.
Proof.
  intros Hvalid Hlo Hhi. destruct phi as [s|s| |s m e].
  - destruct s; reflexivity.
  - destruct s; discriminate.
  - discriminate.
  - unfold PreProcessEscapedRays.wrapPhi. destruct s.
    + change (F32.lt (S754_finite true m e) F32.zero) with true. cbv iota.
      apply add_TwoPi_range; assumption.
    + change (F32.lt (S754_finite false m e) F32.zero) with false. cbv iota.
      destruct (F32.gt (S754_finite false m e) TwoPi) eqn:Hgt.
      * destruct (F32.lt (S754_finite false m e) twoTurns) eqn:Hlt.
        { apply sub_TwoPi_range; assumption. }
        assert (S754_finite false m e = twoTurns) as ->; [|reflexivity].
        unfold F32.le, F32.lt, SFleb, SFltb, twoTurns, SFcompare in Hhi, Hlt.
        destruct (Z.compare_spec e (-20)) as [->| |]; try discriminate.
        change (Pos.compare_cont Eq m 13176795) with (Pos.compare m 13176795)
          in Hhi, Hlt.
        destruct (Pos.compare_spec m 13176795) as [->| |]; try discriminate.
        reflexivity.
      * unfold inClosedTurn. apply andb_true_intro. split; [reflexivity|].
        apply not_lt_le; [reflexivity | reflexivity | exact Hgt].
Qed.

Lemma PreProcess_body_at `{Externs} (results : list TraceResult.t) (az : float)
    (r : Z) (u v : list float) (res : TraceResult.t) :
  load results r = Some res → r < size u → r < size v →
  PreProcessEscapedRays.body results az r (u, v) =
  Some (<[Z.to_nat r := fst (uvEntry az res)]> u,
        <[Z.to_nat r := snd (uvEntry az res)]> v).
Proof.
  intros Hres Hu Hv. unfold PreProcessEscapedRays.body, uvEntry.
  rewrite Hres. simpl. rewrite test_ESCAPED.
  apply load_Some in Hres as [Hr _].
  destruct (escaped (TraceResult.h res)); simpl;
    rewrite !store_in_range by lia; reflexivity.
Qed.

Lemma PreProcess_compute_lookup `{Externs} (results : list TraceResult.t)
    (az : float) (w : Z) (u v : list float) :
  0 < numWorkers → 0 ≤ w → size results + numWorkers ≤ 2 ^ 32 →
  size results ≤ size u → size results ≤ size v →
  ∃ u' v',
    PreProcessEscapedRays.compute results az w (u, v) = Some (u', v') ∧
    ∀ j res, load results j = Some res →
      (load u' j, load v' j) =
      if decide (j ∈ strideIndices w (size results) numWorkers)
      then (Some (fst (uvEntry az res)), Some (snd (uvEntry az res)))
      else (load u j, load v j).
Proof.
  intros HW Hw Hfit Hu Hv. unfold PreProcessEscapedRays.compute.
  rewrite workerLoop_stride by (unfold size in *; lia).
  destruct (foldOpt_frame
              (λ (out : PreProcessEscapedRays.UV) j, (load (fst out) j, load (snd out) j))
              (λ out, size (fst out) = size u ∧ size (snd out) = size v)
              (PreProcessEscapedRays.body results az)
              (λ j, match load results j with
                    | Some res => (Some (fst (uvEntry az res)), Some (snd (uvEntry az res)))
                    | None => (load u j, load v j)
                    end)
              (strideIndices w (size results) numWorkers) (u, v))
    as ([u' v'] & Hrun & _ & Hlook).
  - apply NoDup_strideIndices. exact HW.
  - split; reflexivity.
  - intros r [u0 v0] Hin [Hsu Hsv] _. simpl in Hsu, Hsv.
    apply elem_of_strideIndices in Hin as [Hr _]; [|exact HW].
    destruct (load_in_range results r) as [res Hres]; [lia|].
    eexists. split; [apply (PreProcess_body_at _ _ _ _ _ res); [exact Hres|lia..]|].
    simpl. rewrite !size_insert, Hres.
    split; [split; assumption|]. split.
    + rewrite !load_insert_eq by lia. reflexivity.
    + intros j Hne. rewrite !load_insert_ne by lia. reflexivity.
  - exists u', v'. split; [exact Hrun|]. intros j res Hres.
    specialize (Hlook j). simpl in Hlook. rewrite Hres in Hlook. exact Hlook.
Qed.

(** C7. Phase A, run by worker [w] with output tensors at least as long
    as the result array: every entry of the worker's share whose ESCAPED
    flag (bit 1 of [flags]) is clear gets [u = 0] and [v = 0], whatever
    else the entry holds. *)
Theorem PreProcess_zeroes_non_escaped `{Externs} (results : list TraceResult.t)
    (az : float) (w : Z) (u v : list float)
    (HW : 0 < numWorkers) (Hw : 0 ≤ w < numWorkers)
    (Hfit : size results + numWorkers ≤ 2 ^ 32)
    (Hu : size results ≤ size u) (Hv : size results ≤ size v) :
  ∃ u' v',
    PreProcessEscapedRays.compute results az w (u, v) = Some (u', v') ∧
    ∀ r res, r mod numWorkers = w → load results r = Some res →
      escaped (TraceResult.h res) = false →
      load u' r = Some F32.zero ∧ load v' r = Some F32.zero.
Proof.
  destruct (PreProcess_compute_lookup results az w u v)
    as (u' & v' & Hrun & Hlook); [lia..|].
  exists u', v'. split; [exact Hrun|].
  intros r res Hmod Hres Hesc. specialize (Hlook r res Hres).
  apply load_Some in Hres as [Hr _].
  destruct (decide (r ∈ strideIndices w (size results) numWorkers)) as [_|Hout].
  - unfold uvEntry in Hlook. rewrite Hesc in Hlook. simpl in Hlook.
    injection Hlook as -> ->. split; reflexivity.
  - exfalso. apply Hout. apply elem_of_strideIndices_mod; [lia..|].
    split; [exact Hr | exact Hmod].
Qed.

Lemma PreProcess_zeroes_non_escaped_witness :
  ∃ u' v',
    PreProcessEscapedRays.compute (H := fixedExterns None false)
      [cameraResult] Pi 0 ([F32.one], [F32.two]) = Some (u', v') ∧
    load u' 0 = Some F32.zero ∧ load v' 0 = Some F32.zero.
Proof.
  destruct (@PreProcess_zeroes_non_escaped (fixedExterns None false)
              [cameraResult] Pi 0 [F32.one] [F32.two])
    as (u' & v' & Hrun & Hzero).
  - simpl. lia.
  - simpl. lia.
  - simpl. unfold size. simpl. lia.
  - unfold size. simpl. lia.
  - unfold size. simpl. lia.
  - exists u', v'. split; [exact Hrun|].
    apply (Hzero 0 cameraResult); reflexivity.
Defined.

(** C2, as amended. Phase A, run by worker [w]: every entry of the
    worker's share whose ESCAPED flag is set gets [u = theta * InvPi] with
    [theta = acosf(dir.y)] and [v = phi' * Inv2Pi], where the raw longitude
    [phi = atan2(dir.z, dir.x) + azimuthRotation] is moved by at most one
    turn: [phi' = phi + TwoPi] if [phi < 0], [phi' = phi - TwoPi] if
    [phi > TwoPi], and [phi' = phi] if [0 <= phi <= TwoPi]. For a raw [phi]
    from [-TwoPi] to [2 TwoPi] the result lies in the closed interval from 0
    to [TwoPi]; the upper end is reached: a raw [phi] of [TwoPi] stays
    [TwoPi]. Of the boundary inputs (with [eps] = 2^-10), [-eps], [0],
    [TwoPi - eps] and [TwoPi + eps] end in [0, TwoPi), and [TwoPi] ends at
    [TwoPi]. *)
Theorem PreProcess_equirectangular `{Externs} (results : list TraceResult.t)
    (az : float) (w : Z) (u v : list float)
    (HW : 0 < numWorkers) (Hw : 0 ≤ w < numWorkers)
    (Hfit : size results + numWorkers ≤ 2 ^ 32)
    (Hu : size results ≤ size u) (Hv : size results ≤ size v) :
  (∃ u' v',
     PreProcessEscapedRays.compute results az w (u, v) = Some (u', v') ∧
     ∀ r res, r mod numWorkers = w → load results r = Some res →
       escaped (TraceResult.h res) = true →
       let dir := Ray.direction (HitRecord.r (TraceResult.h res)) in
       let phi := F32.add (atan2 (Vec3fa.z dir) (Vec3fa.x dir)) az in
       ∃ phi',
         load u' r = Some (F32.mul (acosf (Vec3fa.y dir)) InvPi) ∧
         load v' r = Some (F32.mul phi' Inv2Pi) ∧
         (F32.lt phi F32.zero = true → phi' = F32.add phi TwoPi) ∧
         (F32.lt phi F32.zero = false → F32.gt phi TwoPi = true →
          phi' = F32.sub phi TwoPi) ∧
         (inClosedTurn phi = true → phi' = phi) ∧
         (F32.valid phi = true → F32.le (F32.opp TwoPi) phi = true →
          F32.le phi twoTurns = true → inClosedTurn phi' = true)) ∧
  inTurn (PreProcessEscapedRays.wrapPhi (F32.opp eps)) = true ∧
  inTurn (PreProcessEscapedRays.wrapPhi F32.zero) = true ∧
  inTurn (PreProcessEscapedRays.wrapPhi (F32.sub TwoPi eps)) = true ∧
  inTurn (PreProcessEscapedRays.wrapPhi (F32.add TwoPi eps)) = true ∧
  PreProcessEscapedRays.wrapPhi TwoPi = TwoPi ∧
  inClosedTurn (PreProcessEscapedRays.wrapPhi TwoPi) = true.
Proof.
  split; [|repeat split].
  destruct (PreProcess_compute_lookup results az w u v)
    as (u' & v' & Hrun & Hlook); [lia..|].
  exists u', v'. split; [exact Hrun|].
  intros r res Hmod Hres Hesc dir phi. specialize (Hlook r res Hres).
  apply load_Some in Hres as [Hr _].
  destruct (decide (r ∈ strideIndices w (size results) numWorkers)) as [_|Hout].
  - unfold uvEntry in Hlook. rewrite Hesc in Hlook. simpl in Hlook.
    injection Hlook as -> ->. fold dir. fold phi.
    exists (PreProcessEscapedRays.wrapPhi phi).
    split; [reflexivity|]. split; [reflexivity|].
    split; [|split].
    + intros Hneg. unfold PreProcessEscapedRays.wrapPhi. rewrite Hneg. reflexivity.
    + intros Hneg Hbig. unfold PreProcessEscapedRays.wrapPhi.
      rewrite Hneg, Hbig. reflexivity.
    + split; [apply wrapPhi_in_range | apply wrapPhi_range].
  - exfalso. apply Hout. apply elem_of_strideIndices_mod; [lia..|].
    split; [exact Hr | exact Hmod].
Qed.

Lemma PreProcess_equirectangular_witness :
  ∃ u' v',
    PreProcessEscapedRays.compute (H := fixedExterns None false)
      [escapedResult] eps 0 ([F32.one], [F32.two]) = Some (u', v') ∧
    load u' 0 = Some (F32.mul Piby2 InvPi) ∧
    load v' 0 = Some (F32.mul eps Inv2Pi).
Proof.
  destruct (@PreProcess_equirectangular (fixedExterns None false)
              [escapedResult] eps 0 [F32.one] [F32.two])
    as ((u' & v' & Hrun & Hesc) & _).
  - simpl. lia.
  - simpl. lia.
  - simpl. unfold size. simpl. lia.
  - unfold size. simpl. lia.
  - unfold size. simpl. lia.
  - exists u', v'. split; [exact Hrun|].
    destruct (Hesc 0 escapedResult eq_refl eq_refl eq_refl)
      as (phi' & Hu' & Hv' & _ & _ & Hin & _).
    rewrite (Hin eq_refl) in Hv'. split; [exact Hu' | exact Hv'].
Defined.

(** C2, as stated, fails at the raw longitude [TwoPi]: neither range test
    fires, the longitude stays [TwoPi], which is not below [TwoPi], and the
    emitted [v] is 1. It also fails just below zero: [-tiny + TwoPi] rounds
    to [TwoPi]. In the run below the ray direction is (1, 0, 0), for which
    [atan2(0, 1)] is 0, and the azimuth rotation is [TwoPi]. *)
Lemma wrapPhi_leaves_TwoPi :
  PreProcessEscapedRays.wrapPhi TwoPi = TwoPi ∧
  inTurn (PreProcessEscapedRays.wrapPhi TwoPi) = false ∧
  inTurn (PreProcessEscapedRays.wrapPhi (F32.opp tiny)) = false ∧
  PreProcessEscapedRays.compute (H := fixedExterns None false)
    [escapedResult] TwoPi 0 ([F32.zero], [F32.zero])
  = Some ([F32.half], [F32.one]).
Proof. repeat split. Qed.

(** ** The bounce loop of PathTrace *)

(** C5. When the closest-hit query of a bounce finds nothing, the bounce
    sets the ESCAPED flag (bit 1 of [flags]) and the loop ends there,
    however many iterations were left. The ray is the one the query
    returned; throughput, running colour, accumulated colour and the
    position of the random number generator are what they were before the
    bounce, so no throughput update and no roulette draw took place, and
    the outcome is the same for every material table, even an empty one. *)
Theorem no_hit_escapes_and_stops `{Externs} (scene : SceneRef.t) (n : nat)
    (i : Z) (st : PathTrace.PathState) (r' : Ray.t)
    (Hmiss : bvh_intersect
               (Ray.set_limits
                  (offsetRay (HitRecord.r (PathTrace.hit st))
                             (HitRecord.normal (PathTrace.hit st)))
                  F32.zero F32.infinity) = (r', None)) :
  let h := PathTrace.hit st in
  let h' := HitRecord.mk r' (HitRecord.primID h) (HitRecord.normal h)
              (HitRecord.throughput h) (HitRecord.geomID h)
              (Z.lor (HitRecord.flags h) HitRecord.ESCAPED) in
  let st' := PathTrace.mkState
               (TraceResult.mk (TraceResult.rgb (PathTrace.result st))
                               (TraceResult.p (PathTrace.result st)) h')
               (PathTrace.color st) (PathTrace.rng st) in
  PathTrace.bounce scene i st = Some (st', PathTrace.Break) ∧
  PathTrace.bounceLoop scene (S n) i st = Some st' ∧
  escaped (PathTrace.hit st') = true.
Proof.
  intros h h' st'.
  assert (PathTrace.bounce scene i st = Some (st', PathTrace.Break)) as Hstep.
  { unfold PathTrace.bounce. rewrite Hmiss. reflexivity. }
  split; [exact Hstep|]. split.
  - simpl. rewrite Hstep. reflexivity.
  - apply (raise_ESCAPED (HitRecord.set_r h r')).
Qed.

Lemma no_hit_escapes_and_stops_witness :
  ∃ st',
    PathTrace.bounceLoop (H := fixedExterns None false)
      (sceneWith mirror 4 0) 4 0 cameraState = Some st' ∧
    HitRecord.flags (PathTrace.hit st') = 2 ∧
    HitRecord.throughput (PathTrace.hit st') = vone ∧
    PathTrace.rng st' = freshRng.
Proof.
  pose proof (@no_hit_escapes_and_stops (fixedExterns None false)
                (sceneWith mirror 4 0) 3 0 cameraState
                (HitRecord.r cameraHit) eq_refl) as (_ & Hloop & _).
  eexists. split; [exact Hloop|]. repeat split.
Defined.

(** The accumulated colour changes only in the unknown-material branch,
    where it is multiplied by NaN; a poisoned colour therefore stays
    poisoned. *)
Lemma poisoned_mul_nan (v : Vec3fa.t) :
  poisoned (Vec3fa.mul v (Vec3fa.splat F32.quiet_NaN)).
Proof. unfold poisoned. simpl. rewrite !mul_nan_r. auto. Qed.

Lemma poisoned_add (v c : Vec3fa.t) : poisoned v → poisoned (Vec3fa.add v c).
Proof.
  intros (Hx & Hy & Hz). unfold poisoned. simpl. rewrite Hx, Hy, Hz. auto.
Qed.

Lemma shade_rgb `{Externs} (scene : SceneRef.t) (isect : Isect)
    (st st' : PathTrace.PathState) :
  PathTrace.shade scene isect st = Some st' →
  TraceResult.rgb (PathTrace.result st') = TraceResult.rgb (PathTrace.result st) ∨
  poisoned (TraceResult.rgb (PathTrace.result st')).
Proof.
  unfold PathTrace.shade. intros Hshade.
  destruct (load (SceneRef.matIDs scene) _) as [matID|]; [|discriminate].
  simpl in Hshade.
  destruct (load (SceneRef.materials scene) matID) as [material|]; [|discriminate].
  simpl in Hshade.
  destruct (Material.type material).
  - injection Hshade as <-. left. reflexivity.
  - injection Hshade as <-. left. reflexivity.
  - destruct (dielectric _ _ _ _) as [dir refracted].
    injection Hshade as <-. left. reflexivity.
  - injection Hshade as <-. right. apply poisoned_mul_nan.
Qed.

Lemma roulette_result `{Externs} (scene : SceneRef.t) (i : Z)
    (st : PathTrace.PathState) :
  PathTrace.result (fst (PathTrace.roulette scene i st)) = PathTrace.result st ∧
  PathTrace.color (fst (PathTrace.roulette scene i st)) = PathTrace.color st.
Proof.
  unfold PathTrace.roulette.
  destruct (SceneRef.rouletteStartDepth scene <? i); [|split; reflexivity].
  simpl. destruct (evaluateRoulette _ _); split; reflexivity.
Qed.

Lemma bounce_keeps_poison `{Externs} (scene : SceneRef.t) (i : Z)
    (st st' : PathTrace.PathState) (flow : PathTrace.Flow) :
  poisoned (TraceResult.rgb (PathTrace.result st)) →
  PathTrace.bounce scene i st = Some (st', flow) →
  poisoned (TraceResult.rgb (PathTrace.result st')).
Proof.
  intros Hpoison. unfold PathTrace.bounce.
  destruct (bvh_intersect _) as [r3 [isect|]].
  - destruct (PathTrace.shade scene isect _) as [st2|] eqn:Hshade; [|discriminate].
    simpl. intros Hstep. injection Hstep as Hst'.
    pose proof (roulette_result scene i st2) as [Hres _].
    rewrite Hst' in Hres. simpl in Hres. rewrite Hres.
    apply shade_rgb in Hshade as [->|Hp]; [exact Hpoison | exact Hp].
  - intros Hstep. injection Hstep as <- _. exact Hpoison.
Qed.

Lemma bounceLoop_keeps_poison `{Externs} (scene : SceneRef.t) (n : nat) :
  ∀ (i : Z) (st st' : PathTrace.PathState),
    poisoned (TraceResult.rgb (PathTrace.result st)) →
    PathTrace.bounceLoop scene n i st = Some st' →
    poisoned (TraceResult.rgb (PathTrace.result st')).
Proof.
  induction n as [|n IH]; intros i st st' Hpoison Hloop.
  - injection Hloop as <-. exact Hpoison.
  - simpl in Hloop.
    destruct (PathTrace.bounce scene i st) as [[st1 flow]|] eqn:Hstep;
      [|discriminate].
    simpl in Hloop. pose proof (bounce_keeps_poison _ _ _ _ _ Hpoison Hstep).
    destruct flow.
    + eapply IH; eassumption.
    + injection Hloop as <-. assumption.
Qed.

(** C6. When a bounce hits a surface whose material tag is none of
    Diffuse, Specular and Refractive, the bounce completes (nothing is
    thrown, the path is not aborted by it), the ERROR flag (bit 0 of
    [flags]) is set on the hit record and every component of the entry's
    accumulated colour is NaN. The NaN stays: whatever the remaining
    bounces do, the colour stored at the end of the path,
    [rgb + color], is NaN in every component. *)
Theorem unknown_material_poisons `{Externs} (scene : SceneRef.t) (i : Z)
    (st : PathTrace.PathState) (r' : Ray.t) (isect : Isect) (matID : Z)
    (material : Material.t)
    (Hhit : bvh_intersect
              (Ray.set_limits
                 (offsetRay (HitRecord.r (PathTrace.hit st))
                            (HitRecord.normal (PathTrace.hit st)))
                 F32.zero F32.infinity) = (r', Some isect))
    (HmatID : load (SceneRef.matIDs scene)
                (HitRecord.geomID
                   (updateHit isect (HitRecord.set_r (PathTrace.hit st) r')))
              = Some matID)
    (Hmat : load (SceneRef.materials scene) matID = Some material)
    (Hd : Material.type material ≠ Material.Diffuse)
    (Hs : Material.type material ≠ Material.Specular)
    (Hr : Material.type material ≠ Material.Refractive) :
  ∃ st' flow,
    PathTrace.bounce scene i st = Some (st', flow) ∧
    errored (PathTrace.hit st') = true ∧
    poisoned (TraceResult.rgb (PathTrace.result st')) ∧
    ∀ n st'', PathTrace.bounceLoop scene n (i + 1) st' = Some st'' →
      poisoned (Vec3fa.add (TraceResult.rgb (PathTrace.result st''))
                           (PathTrace.color st'')).
Proof.
  destruct (Material.type material) as [| | |raw] eqn:Htag; try congruence.
  set (hit1 := updateHit isect (HitRecord.set_r (PathTrace.hit st) r')) in *.
  set (st1 := PathTrace.set_hit st (HitRecord.set_r (PathTrace.hit st) r')).
  set (st2 := PathTrace.mkState
                (TraceResult.mk
                   (Vec3fa.mul (TraceResult.rgb (PathTrace.result st))
                               (Vec3fa.splat F32.quiet_NaN))
                   (TraceResult.p (PathTrace.result st))
                   (HitRecord.raise hit1 HitRecord.ERROR))
                (if Material.emissive material
                 then Vec3fa.add (PathTrace.color st)
                        (Vec3fa.mul (HitRecord.throughput hit1)
                                    (Material.emission material))
                 else PathTrace.color st)
                (PathTrace.rng st)).
  assert (PathTrace.shade scene isect st1 = Some st2) as Hshade.
  { unfold PathTrace.shade.
    change (PathTrace.hit st1) with (HitRecord.set_r (PathTrace.hit st) r').
    fold hit1. rewrite HmatID. simpl. rewrite Hmat. simpl. rewrite Htag.
    reflexivity. }
  assert (PathTrace.bounce scene i st = Some (PathTrace.roulette scene i st2))
    as Hstep.
  { unfold PathTrace.bounce. rewrite Hhit. fold st1. rewrite Hshade. reflexivity. }
  pose proof (roulette_result scene i st2) as [Hres _].
  destruct (PathTrace.roulette scene i st2) as [st' flow]. simpl in Hres.
  assert (poisoned (TraceResult.rgb (PathTrace.result st'))) as Hpoison.
  { rewrite Hres. apply poisoned_mul_nan. }
  exists st', flow. split; [exact Hstep|]. split; [|split].
  - unfold PathTrace.hit. rewrite Hres. apply raise_ERROR.
  - exact Hpoison.
  - intros n st'' Hloop. apply poisoned_add.
    eapply bounceLoop_keeps_poison; eassumption.
Qed.

Lemma unknown_material_poisons_witness :
  ∃ st' flow,
    PathTrace.bounce (H := fixedExterns (Some 0) false)
      (sceneWith broken 4 0) 0 cameraState = Some (st', flow) ∧
    errored (PathTrace.hit st') = true ∧
    poisoned (TraceResult.rgb (PathTrace.result st')).
Proof.
  destruct (@unknown_material_poisons (fixedExterns (Some 0) false)
              (sceneWith broken 4 0) 0 cameraState (HitRecord.r cameraHit)
              0 0 broken eq_refl eq_refl eq_refl)
    as (st' & flow & Hstep & Herr & Hpoison & _); try discriminate.
  exists st', flow. auto.
Defined.

(** Above the start depth the random-stopping block draws one sample and
    tests it against the throughput, which it leaves as it is. *)
Lemma roulette_above_start `{Externs} (scene : SceneRef.t) (i : Z)
    (st : PathTrace.PathState) :
  SceneRef.rouletteStartDepth scene < i →
  let u1 := F32.add (urand_f32 (Rng.upos (PathTrace.rng st))) F32.half in
  let stop := evaluateRoulette u1 (HitRecord.throughput (PathTrace.hit st)) in
  PathTrace.roulette scene i st =
  (PathTrace.mkState (PathTrace.result st) (PathTrace.color st)
     (Rng.mk (S (Rng.upos (PathTrace.rng st))) (Rng.gpos (PathTrace.rng st))),
   if stop then PathTrace.Break else PathTrace.Continue).
Proof.
  intros Hi u1 stop. unfold PathTrace.roulette.
  destruct (Z.ltb_spec (SceneRef.rouletteStartDepth scene) i); [|lia].
  simpl. fold u1. unfold PathTrace.hit. simpl. fold (PathTrace.hit st).
  fold stop. destruct stop; reflexivity.
Qed.

Lemma roulette_up_to_start `{Externs} (scene : SceneRef.t) (i : Z)
    (st : PathTrace.PathState) :
  i ≤ SceneRef.rouletteStartDepth scene →
  PathTrace.roulette scene i st = (st, PathTrace.Continue).
Proof.
  intros Hi. unfold PathTrace.roulette.
  destruct (Z.ltb_spec (SceneRef.rouletteStartDepth scene) i); [lia|].
  reflexivity.
Qed.

(** C1 fails on the code at the bounce whose index equals
    [rouletteStartDepth]: the guard is [i > rouletteStartDepth], so the
    random-stopping block does nothing there. In the run below the start
    depth is 0, every ray hits a mirror of albedo one half and the roulette
    test would stop the path whenever it is asked. Bounce 0 draws no sample
    and goes on; the path stops at bounce 1, after one draw, with
    throughput one quarter instead of one half. *)
Theorem roulette_skipped_at_start_depth :
  (∀ (E : Externs) scene st,
     PathTrace.roulette scene (SceneRef.rouletteStartDepth scene) st
     = (st, PathTrace.Continue)) ∧
  let E := fixedExterns (Some 0) true in
  let scene := sceneWith mirror 3 0 in
  ∃ st1 st2,
    PathTrace.bounce scene 0 cameraState = Some (st1, PathTrace.Continue) ∧
    PathTrace.rng st1 = freshRng ∧
    HitRecord.throughput (PathTrace.hit st1) = vhalf ∧
    PathTrace.bounce scene 1 st1 = Some (st2, PathTrace.Break) ∧
    PathTrace.rng st2 = Rng.mk 1 0 ∧
    PathTrace.bounceLoop scene 3 0 cameraState = Some st2 ∧
    HitRecord.throughput (PathTrace.hit st2) =
      Vec3fa.splat (F32.mul F32.half F32.half).
Proof.
  split.
  - intros E scene st. apply roulette_up_to_start. lia.
  - do 2 eexists. repeat split.
Qed.

(* ===================================================================== *)
(** * Further properties of geometry.hpp *)
(* ===================================================================== *)

(** ** Arithmetic of single floats *)

Lemma mul_comm (a b : float) : F32.mul a b = F32.mul b a.
Proof.
  destruct a as [[]|[]| |sa ma ea], b as [[]|[]| |sb mb eb];
    try reflexivity; try (destruct sa; reflexivity);
    try (destruct sb; reflexivity).
  unfold F32.mul, SFmul.
  rewrite (xorb_comm sa sb), (Pos.mul_comm ma mb), (Z.add_comm ea eb).
  reflexivity.
Qed.

Lemma sub_add_opp (a b : float) : F32.sub a b = F32.add a (F32.opp b).
Proof.
  destruct a as [[]|[]| |sa ma ea], b as [[]|[]| |sb mb eb];
    try reflexivity; try (destruct sa; reflexivity).
  unfold F32.sub, F32.add, F32.opp, SFsub, SFadd, SFopp.
  f_equal. destruct sb; simpl; lia.
Qed.

Lemma opp_involutive (a : float) : F32.opp (F32.opp a) = a.
Proof. destruct a as [[]|[]| |[] m e]; reflexivity. Qed.

Lemma sub_diag (a : float) :
  F32.sub a a = match a with
                | S754_zero _ | S754_finite _ _ _ => F32.zero
                | _ => F32.quiet_NaN
                end.
Proof.
  destruct a as [[]|[]| |s m e]; try reflexivity.
  unfold F32.sub, SFsub. rewrite Z.sub_diag. reflexivity.
Qed.

Lemma min_le (a b : float) :
  F32.is_nan a = false → F32.is_nan b = false →
  F32.le (F32.min a b) a = true ∧ F32.le (F32.min a b) b = true.
Proof.
  intros Ha Hb. unfold F32.min. destruct (F32.lt b a) eqn:Hlt.
  - split; [apply lt_le; exact Hlt | apply le_refl; exact Hb].
  - split; [apply le_refl; exact Ha | apply not_lt_le; assumption].
Qed.

Lemma max_ge (a b : float) :
  F32.is_nan a = false → F32.is_nan b = false →
  F32.le a (F32.max a b) = true ∧ F32.le b (F32.max a b) = true.
Proof.
  intros Ha Hb. unfold F32.max. destruct (F32.lt a b) eqn:Hlt.
  - split; [apply lt_le; exact Hlt | apply le_refl; exact Hb].
  - split; [apply le_refl; exact Ha | apply not_lt_le; assumption].
Qed.

Lemma min_absorb (a b : float) : F32.min (F32.min a b) b = F32.min a b.
Proof.
  unfold F32.min. destruct (F32.lt b a) eqn:Hlt.
  - destruct (F32.lt b b); reflexivity.
  - rewrite Hlt. reflexivity.
Qed.

Lemma max_absorb (a b : float) : F32.max (F32.max a b) b = F32.max a b.
Proof.
  unfold F32.max. destruct (F32.lt a b) eqn:Hlt.
  - destruct (F32.lt b b); reflexivity.
  - rewrite Hlt. reflexivity.
Qed.

Lemma min_nan_free (a b : float) :
  F32.is_nan a = false → F32.is_nan b = false → F32.is_nan (F32.min a b) = false.
Proof. intros Ha Hb. unfold F32.min. destruct (F32.lt b a); assumption. Qed.

Lemma max_nan_free (a b : float) :
  F32.is_nan a = false → F32.is_nan b = false → F32.is_nan (F32.max a b) = false.
Proof. intros Ha Hb. unfold F32.max. destruct (F32.lt a b); assumption. Qed.

(** ** Vec3fa *)

Lemma Vec3fa_min_le (a b : Vec3fa.t) :
  Vec3fa.has_nan a = false → Vec3fa.has_nan b = false →
  vle (Vec3fa.min a b) a = true ∧ vle (Vec3fa.min a b) b = true.
Proof.
  intros Ha Hb.
  apply has_nan_false in Ha as (Hax & Hay & Haz).
  apply has_nan_false in Hb as (Hbx & Hby & Hbz).
  destruct a as [ax ay az], b as [bx by_ bz].
  cbn [Vec3fa.x Vec3fa.y Vec3fa.z] in *.
  destruct (min_le ax bx Hax Hbx) as [Hx1 Hx2], (min_le ay by_ Hay Hby) as [Hy1 Hy2],
    (min_le az bz Haz Hbz) as [Hz1 Hz2].
  unfold vle, Vec3fa.min. cbn [Vec3fa.x Vec3fa.y Vec3fa.z].
  rewrite Hx1, Hx2, Hy1, Hy2, Hz1, Hz2. split; reflexivity.
Qed.

Lemma Vec3fa_max_ge (a b : Vec3fa.t) :
  Vec3fa.has_nan a = false → Vec3fa.has_nan b = false →
  vle a (Vec3fa.max a b) = true ∧ vle b (Vec3fa.max a b) = true.
Proof.
  intros Ha Hb.
  apply has_nan_false in Ha as (Hax & Hay & Haz).
  apply has_nan_false in Hb as (Hbx & Hby & Hbz).
  destruct a as [ax ay az], b as [bx by_ bz].
  cbn [Vec3fa.x Vec3fa.y Vec3fa.z] in *.
  destruct (max_ge ax bx Hax Hbx) as [Gx1 Gx2], (max_ge ay by_ Hay Hby) as [Gy1 Gy2],
    (max_ge az bz Haz Hbz) as [Gz1 Gz2].
  unfold vle, Vec3fa.max. cbn [Vec3fa.x Vec3fa.y Vec3fa.z].
  rewrite Gx1, Gx2, Gy1, Gy2, Gz1, Gz2. split; reflexivity.
Qed.

(** X1. For vectors without NaN, [min] is a componentwise lower bound of
    both arguments and [max] a componentwise upper bound. *)
Theorem Vec3fa_min_max_bounds (a b : Vec3fa.t)
    (Ha : Vec3fa.has_nan a = false) (Hb : Vec3fa.has_nan b = false) :
  vle (Vec3fa.min a b) a = true ∧ vle (Vec3fa.min a b) b = true ∧
  vle a (Vec3fa.max a b) = true ∧ vle b (Vec3fa.max a b) = true.
Proof.
  destruct (Vec3fa_min_le a b Ha Hb) as [Hl1 Hl2].
  destruct (Vec3fa_max_ge a b Ha Hb) as [Hg1 Hg2].
  split; [exact Hl1|]. split; [exact Hl2|]. split; [exact Hg1 | exact Hg2].
Qed.

Lemma Vec3fa_min_max_bounds_witness :
  vle (Vec3fa.min vhalf vone) vone = true ∧ vle vzero (Vec3fa.max vzero vhalf) = true.
Proof.
  split.
  - apply (Vec3fa_min_max_bounds vhalf vone eq_refl eq_refl).
  - apply (Vec3fa_min_max_bounds vzero vhalf eq_refl eq_refl).
Defined.

(** X2. Subtraction is addition of the negated vector, and negating twice
    gives the vector back; both hold for every input, NaN, infinities and
    signed zeros included. *)
Theorem Vec3fa_sub_is_add_neg :
  (∀ a b, Vec3fa.sub a b = Vec3fa.add a (Vec3fa.neg b)) ∧
  (∀ a, Vec3fa.neg (Vec3fa.neg a) = a).
Proof.
  split.
  - intros a b. unfold Vec3fa.sub, Vec3fa.add, Vec3fa.neg.
    cbn [Vec3fa.x Vec3fa.y Vec3fa.z]. rewrite !sub_add_opp. reflexivity.
  - intros [ax ay az]. unfold Vec3fa.neg. cbn [Vec3fa.x Vec3fa.y Vec3fa.z].
    rewrite !opp_involutive. reflexivity.
Qed.

(** X3. The dot product is commutative on every pair of vectors, and the
    squared norm is the dot product of a vector with itself. *)
Theorem Vec3fa_dot_comm :
  (∀ a b, Vec3fa.dot a b = Vec3fa.dot b a) ∧
  (∀ a, Vec3fa.squaredNorm a = Vec3fa.dot a a).
Proof.
  split; [|reflexivity].
  intros a b. unfold Vec3fa.dot.
  rewrite (mul_comm (Vec3fa.x a)), (mul_comm (Vec3fa.y a)), (mul_comm (Vec3fa.z a)).
  reflexivity.
Qed.


(** X5. [isNonZero] is the negation of [isZero] on every vector; a NaN
    component makes the vector non-zero. *)
Theorem Vec3fa_isNonZero_negates_isZero :
  (∀ v, Vec3fa.isNonZero v = negb (Vec3fa.isZero v)) ∧
  (∀ v, Vec3fa.has_nan v = true → Vec3fa.isNonZero v = true).
Proof.
  assert (∀ v, Vec3fa.isNonZero v = negb (Vec3fa.isZero v)) as Hneg.
  { intros v. unfold Vec3fa.isNonZero, Vec3fa.isZero, F32.neq.
    rewrite !negb_andb. reflexivity. }
  split; [exact Hneg|].
  intros [x y z]. unfold Vec3fa.has_nan, Vec3fa.isNonZero, F32.neq.
  cbn [Vec3fa.x Vec3fa.y Vec3fa.z].
  destruct x as [[]|[]| |[] mx ex_], y as [[]|[]| |[] my ey],
           z as [[]|[]| |[] mz ez]; simpl; congruence.
Qed.

(** X6. Normalising a zero vector does not fail and does not return a
    vector: whatever the signs of the zeros, every component of the result
    is NaN (the scale factor is one over zero, infinity, and zero times
    infinity is NaN). *)
Theorem Vec3fa_normalized_zero (v : Vec3fa.t) (Hv : Vec3fa.isZero v = true) :
  poisoned (Vec3fa.normalized v).
Proof.
  destruct v as [x y z]. unfold Vec3fa.isZero in Hv.
  cbn [Vec3fa.x Vec3fa.y Vec3fa.z] in Hv.
  apply andb_prop in Hv as [Hxy Hz]. apply andb_prop in Hxy as [Hx Hy].
  destruct x as [sx|[]| |[] mx ex_]; try discriminate Hx.
  destruct y as [sy|[]| |[] my ey]; try discriminate Hy.
  destruct z as [sz|[]| |[] mz ez]; try discriminate Hz.
  destruct sx, sy, sz; repeat split.
Qed.

Lemma Vec3fa_normalized_zero_witness : poisoned (Vec3fa.normalized vzero).
Proof. apply (Vec3fa_normalized_zero vzero). reflexivity. Defined.

(** X7. [permute] reads three components by index: it is defined exactly
    when the three indices are 0, 1 or 2, the identity permutation gives the
    vector back, and applying the cyclic permutation (1, 2, 0) three times is
    the identity. *)
Theorem Vec3fa_permute (v : Vec3fa.t) :
  (∀ ix iy iz, is_Some (Vec3fa.permute v ix iy iz) ↔
               0 ≤ ix ≤ 2 ∧ 0 ≤ iy ≤ 2 ∧ 0 ≤ iz ≤ 2) ∧
  Vec3fa.permute v 0 1 2 = Some v ∧
  (Vec3fa.permute v 1 2 0 ≫= λ a,
   Vec3fa.permute a 1 2 0 ≫= λ b, Vec3fa.permute b 1 2 0) = Some v.
Proof.
  assert (∀ i, is_Some (Vec3fa.c v i) ↔ 0 ≤ i ≤ 2) as Hc.
  { intros i. unfold Vec3fa.c. destruct i as [|[[]|[]|]|]; split;
      intros H; try lia; try (eexists; reflexivity);
      destruct H as [? H]; discriminate H. }
  split; [|destruct v; split; reflexivity].
  intros ix iy iz. unfold Vec3fa.permute.
  rewrite <- (Hc ix), <- (Hc iy), <- (Hc iz).
  destruct (Vec3fa.c v ix), (Vec3fa.c v iy), (Vec3fa.c v iz); split;
    try (intros [? H]; discriminate H);
    try (intros (Hx & Hy & Hz); first [destruct Hx as [? Hx]; discriminate Hx
                                      | destruct Hy as [? Hy]; discriminate Hy
                                      | destruct Hz as [? Hz]; discriminate Hz]);
    eauto.
Qed.

(** ** Bounds3d *)

(** X8. Extending a box by another box, neither with a NaN coordinate,
    gives a box that encloses both: its [min] is componentwise below both
    minima and its [max] componentwise above both maxima. Extending by a
    point [p] gives a box with [min <= p <= max]. *)
Theorem Bounds3d_extend_encloses (b other : Bounds3d.t) (p : Vec3fa.t)
    (Hb : Bounds3d.has_nan b = false) (Ho : Bounds3d.has_nan other = false)
    (Hp : Vec3fa.has_nan p = false) :
  let r := Bounds3d.extend b other in
  let q := Bounds3d.extend_point b p in
  vle (Bounds3d.min r) (Bounds3d.min b) = true ∧
  vle (Bounds3d.min r) (Bounds3d.min other) = true ∧
  vle (Bounds3d.max b) (Bounds3d.max r) = true ∧
  vle (Bounds3d.max other) (Bounds3d.max r) = true ∧
  vle (Bounds3d.min q) p = true ∧ vle p (Bounds3d.max q) = true ∧
  Bounds3d.has_nan r = false ∧ Bounds3d.has_nan q = false.
Proof.
  apply orb_false_elim in Hb as [Hbl Hbh], Ho as [Hol Hoh].
  destruct (Vec3fa_min_le _ _ Hbl Hol) as (H1 & H2).
  destruct (Vec3fa_max_ge _ _ Hbh Hoh) as (H3 & H4).
  destruct (Vec3fa_min_le _ _ Hbl Hp) as (_ & H5).
  destruct (Vec3fa_max_ge _ _ Hbh Hp) as (_ & H6).
  apply has_nan_false in Hbl as (? & ? & ?), Hbh as (? & ? & ?),
    Hol as (? & ? & ?), Hoh as (? & ? & ?), Hp as (? & ? & ?).
  repeat split; try assumption;
    unfold Bounds3d.has_nan, Vec3fa.has_nan, Bounds3d.extend, Bounds3d.extend_point;
    cbn [Bounds3d.min Bounds3d.max Vec3fa.x Vec3fa.y Vec3fa.z];
    rewrite ?min_nan_free, ?max_nan_free by assumption; reflexivity.
Qed.

Lemma Bounds3d_extend_encloses_witness :
  vle (Bounds3d.min (Bounds3d.extend_point (Bounds3d.mk vhalf vhalf) vone)) vone = true ∧
  vle vone (Bounds3d.max (Bounds3d.extend_point (Bounds3d.mk vhalf vhalf) vone)) = true.
Proof.
  pose proof (Bounds3d_extend_encloses (Bounds3d.mk vhalf vhalf)
                (Bounds3d.mk vzero vone) vone eq_refl eq_refl eq_refl)
    as (_ & _ & _ & _ & Hlo & Hhi & _).
  split; [exact Hlo | exact Hhi].
Defined.

(** X9. Extension is idempotent: extending a second time by the same box
    or the same point changes nothing, for every input. Extending by a point
    is extending by the box that has the point as both corners. *)
Theorem Bounds3d_extend_idempotent (b other : Bounds3d.t) (p : Vec3fa.t) :
  Bounds3d.extend (Bounds3d.extend b other) other = Bounds3d.extend b other ∧
  Bounds3d.extend_point (Bounds3d.extend_point b p) p = Bounds3d.extend_point b p ∧
  Bounds3d.extend_point b p = Bounds3d.extend b (Bounds3d.mk p p).
Proof.
  unfold Bounds3d.extend, Bounds3d.extend_point.
  cbn [Bounds3d.min Bounds3d.max Vec3fa.x Vec3fa.y Vec3fa.z].
  rewrite !min_absorb, !max_absorb. repeat split.
Qed.

(** X10. The centroid of the default (empty) box is NaN in every
    component, and so is the centroid of any box that has plus infinity and
    minus infinity as opposite corners in all three axes. *)
Theorem Bounds3d_centroid_empty :
  poisoned (Bounds3d.centroid Bounds3d.default) ∧
  ∀ s : bool,
    poisoned (Bounds3d.centroid
                (Bounds3d.mk (Vec3fa.splat (S754_infinity s))
                             (Vec3fa.splat (S754_infinity (negb s))))).
Proof. split; [|intros []]; repeat split. Qed.

(* ===================================================================== *)
(** * Further properties of TraceCodelets.cpp *)
(* ===================================================================== *)

(** ** Shares of the workers *)



(** ** Loops whose body rewrites its own index *)

(** A loop body that succeeds, changes its own index by a relation [R],
    leaves the other indices alone and advances a counter by [d]. *)
Lemma foldOpt_rel {S B : Type} (look : S → Z → B) (Inv : S → Prop)
    (cnt : S → nat) (d : nat) (R : Z → B → B → Prop)
    (body : Z → S → option S) :
  ∀ (l : list Z) (s : S),
    NoDup l → Inv s →
    (∀ r s0, r ∈ l → Inv s0 →
       ∃ s1, body r s0 = Some s1 ∧ Inv s1 ∧ (cnt s1 = cnt s0 + d)%nat ∧
             R r (look s0 r) (look s1 r) ∧
             ∀ j, j ≠ r → look s1 j = look s0 j) →
    ∃ s', foldOpt body l s = Some s' ∧ Inv s' ∧
          (cnt s' = cnt s + d * length l)%nat ∧
          ∀ j, (j ∈ l → R j (look s j) (look s' j)) ∧
               (j ∉ l → look s' j = look s j).
Proof.
  induction l as [|r l IH]; intros s Hnd Hinv Hbody.
  - exists s. split; [reflexivity|]. split; [assumption|].
    split; [simpl; lia|]. intros j. split; [|reflexivity].
    intros Hin. apply elem_of_nil in Hin. contradiction.
  - apply NoDup_cons in Hnd as [Hr Hnd].
    destruct (Hbody r s) as (s1 & Hs1 & Hinv1 & Hcnt1 & Hat & Hframe);
      [apply elem_of_cons; auto | assumption |].
    destruct (IH s1 Hnd Hinv1) as (s' & Hs' & Hinv' & Hcnt' & Hlook).
    { intros r' s0 Hr' Hinv0. apply Hbody; [|assumption].
      apply elem_of_cons. auto. }
    exists s'. simpl. rewrite Hs1. simpl.
    split; [assumption|]. split; [assumption|]. split; [lia|].
    intros j. destruct (Hlook j) as [Hin Hout]. split.
    + intros Hj. apply elem_of_cons in Hj as [->|Hj].
      * rewrite (proj2 (Hlook r) Hr). exact Hat.
      * rewrite <- (Hframe j) by (intros ->; contradiction). apply Hin, Hj.
    + intros Hj. rewrite Hout by (intros ?; apply Hj, elem_of_cons; auto).
      apply Hframe. intros ->. apply Hj, elem_of_cons. auto.
Qed.

(** A property that every successful step of the body keeps is kept by
    the loop. *)
Lemma foldOpt_inv {S : Type} (Inv : S → Prop) (body : Z → S → option S) :
  ∀ (l : list Z) (s s' : S),
    (∀ r s0 s1, r ∈ l → Inv s0 → body r s0 = Some s1 → Inv s1) →
    Inv s → foldOpt body l s = Some s' → Inv s'.
Proof.
  induction l as [|r l IH]; intros s s' Hbody Hinv Hrun.
  - injection Hrun as <-. exact Hinv.
  - simpl in Hrun. destruct (body r s) as [s1|] eqn:Hs1; [|discriminate].
    simpl in Hrun. eapply IH; [| |exact Hrun].
    + intros r' s0 s2 Hr'. apply Hbody. apply elem_of_cons. auto.
    + eapply Hbody; [apply elem_of_cons; auto | exact Hinv | exact Hs1].
Qed.

(** ** Ray generation *)

(** X12. Ray generation by worker [w] always completes. Each entry of the
    worker's share keeps its accumulated colour and its pixel coordinate and
    gets a freshly constructed hit record: origin (0,0,0), some direction,
    interval from 0 to infinity, normal (0,0,1), invalid ids and no flag
    set. Entries of other workers are not touched. The worker takes one
    Gaussian pair per ray of its share and no uniform sample. *)
Theorem sampleCameraRays_resets_hits `{Externs} (w : Z)
    (imageWidth imageHeight : float) (aa : float * float) (fov : float)
    (rays : list TraceResult.t) (g : Rng.t)
    (HW : 0 < numWorkers) (Hw : 0 ≤ w < numWorkers)
    (Hfit : size rays + numWorkers ≤ 2 ^ 32) :
  ∃ rays' g',
    sampleCameraRays w imageWidth imageHeight aa fov (rays, g) = Some (rays', g') ∧
    size rays' = size rays ∧
    Rng.upos g' = Rng.upos g ∧
    Rng.gpos g' =
      (Rng.gpos g + length (strideIndices w (size rays) numWorkers))%nat ∧
    ∀ r res, load rays r = Some res →
      (r mod numWorkers = w →
       ∃ dir, load rays' r =
              Some (TraceResult.mk (TraceResult.rgb res) (TraceResult.p res)
                      (HitRecord.mk
                         (Ray.mk vzero F32.zero dir F32.infinity)
                         HitRecord.InvalidPrimID
                         (Vec3fa.mk F32.zero F32.zero F32.one)
                         indeterminate HitRecord.InvalidGeomID 0))) ∧
      (r mod numWorkers ≠ w → load rays' r = Some res).
Proof.
  unfold sampleCameraRays. destruct (sincos _) as [sn cs].
  cbn [fst]. rewrite workerLoop_stride by (unfold size in *; lia).
  set (R := λ (r : Z) (old new : option TraceResult.t),
         ∀ res, old = Some res →
           ∃ dir, new = Some (TraceResult.mk (TraceResult.rgb res) (TraceResult.p res)
                      (HitRecord.ctor vzero dir indeterminate))).
  destruct (foldOpt_rel (λ (s : Stream) j, load (fst s) j)
              (λ s, size (fst s) = size rays ∧ Rng.upos (snd s) = Rng.upos g)
              (λ s, Rng.gpos (snd s)) 1 R
              (sampleCameraRay imageWidth imageHeight aa (F32.div sn cs))
              (strideIndices w (size rays) numWorkers) (rays, g))
    as ([rays' g'] & Hrun & [Hsize Hupos] & Hcnt & Hlook).
  - apply NoDup_strideIndices. exact HW.
  - split; reflexivity.
  - intros r [rays0 g0] Hin [Hsize0 Hupos0]. cbn [fst snd] in *.
    apply elem_of_strideIndices in Hin as [Hr _]; [|exact HW].
    destruct (load_in_range rays0 r) as [res0 Hres0]; [lia|].
    unfold sampleCameraRay. rewrite Hres0. simpl.
    rewrite store_in_range by lia. simpl.
    eexists. split; [reflexivity|]. cbn beta. cbn [fst snd Rng.upos Rng.gpos].
    rewrite size_insert. split; [split; assumption|]. split; [lia|]. split.
    + unfold R. cbn [fst]. intros res Hres. injection Hres as <-.
      eexists. rewrite load_insert_eq by lia. reflexivity.
    + intros j Hne. apply load_insert_ne; [lia | exact Hne].
  - exists rays', g'. cbn [fst snd] in *.
    split; [exact Hrun|]. split; [exact Hsize|]. split; [exact Hupos|].
    split; [lia|].
    intros r res Hres. pose proof Hres as Hr. apply load_Some in Hr as [Hr _].
    destruct (Hlook r) as [Hin Hout]. split.
    + intros Hmod. apply (Hin ltac:(apply elem_of_strideIndices_mod; lia) res Hres).
    + intros Hne. rewrite Hout; [exact Hres|].
      intros Hin'. apply elem_of_strideIndices_mod in Hin'; lia.
Qed.

Lemma sampleCameraRays_resets_hits_witness :
  ∃ rays' g',
    sampleCameraRays (H := fixedExterns None false) 0 F32.one F32.one
      (F32.zero, F32.zero) F32.one ([escapedResult], freshRng) = Some (rays', g') ∧
    Rng.gpos g' = 1%nat ∧
    ∃ res', load rays' 0 = Some res' ∧
            TraceResult.rgb res' = vone ∧ HitRecord.flags (TraceResult.h res') = 0.
Proof.
  destruct (@sampleCameraRays_resets_hits (fixedExterns None false) 0
              F32.one F32.one (F32.zero, F32.zero) F32.one [escapedResult] freshRng)
    as (rays' & g' & Hrun & _ & _ & Hg & Hspec).
  - simpl. lia.
  - simpl. lia.
  - simpl. unfold size. simpl. lia.
  - exists rays', g'. split; [exact Hrun|]. split; [exact Hg|].
    destruct (Hspec 0 escapedResult eq_refl) as [Hown _].
    destruct (Hown eq_refl) as [dir Hdir].
    eexists. split; [exact Hdir|]. split; reflexivity.
Defined.

(** ** ShadowTrace *)

(** X13. The shadow tracer reads three light coordinates before it looks
    at any ray: with fewer than three it reads out of bounds, even on an
    empty ray array. With at least three (further values are ignored) worker
    [w] completes, each entry of its share is replaced by [traceShadowRay]
    of that entry, applied once, and the other entries are not touched. *)
Theorem ShadowTrace_compute_spec `{Externs} (scene : SceneRef.t) (amb : float)
    (lx ly lz : float) (more : list float) (w : Z) (rays : list TraceResult.t)
    (HW : 0 < numWorkers) (Hw : 0 ≤ w < numWorkers)
    (Hfit : size rays + numWorkers ≤ 2 ^ 32) :
  (∃ rays',
     ShadowTrace.compute scene amb (lx :: ly :: lz :: more) w rays = Some rays' ∧
     size rays' = size rays ∧
     ∀ r res, load rays r = Some res →
       load rays' r =
       Some (if decide (r mod numWorkers = w)
             then traceShadowRay scene amb res (Vec3fa.mk lx ly lz)
             else res)) ∧
  ShadowTrace.compute scene amb [] w rays = None ∧
  ShadowTrace.compute scene amb [lx] w rays = None ∧
  ShadowTrace.compute scene amb [lx; ly] w rays = None.
Proof.
  split; [|repeat split].
  unfold ShadowTrace.compute.
  change (load (lx :: ly :: lz :: more) 0) with (Some lx).
  change (load (lx :: ly :: lz :: more) 1) with (Some ly).
  change (load (lx :: ly :: lz :: more) 2) with (Some lz).
  cbn [mbind option_bind].
  rewrite workerLoop_stride by (unfold size in *; lia).
  set (lp := Vec3fa.mk lx ly lz).
  destruct (foldOpt_frame load (λ a, size a = size rays)
              (ShadowTrace.body scene amb lp)
              (λ j, (λ res, traceShadowRay scene amb res lp) <$> load rays j)
              (strideIndices w (size rays) numWorkers) rays)
    as (rays' & Hrun & Hsize & Hlook).
  - apply NoDup_strideIndices. exact HW.
  - reflexivity.
  - intros r a Hin Hsize Hsame.
    apply elem_of_strideIndices in Hin as [Hr _]; [|exact HW].
    destruct (load_in_range rays r) as [res Hres]; [lia|].
    exists (<[Z.to_nat r := traceShadowRay scene amb res lp]> a).
    split; [|split; [|split]].
    + unfold ShadowTrace.body. rewrite Hsame, Hres. simpl.
      apply store_in_range. lia.
    + rewrite size_insert. exact Hsize.
    + rewrite Hres. simpl. apply load_insert_eq. lia.
    + intros j Hne. apply load_insert_ne; [lia | exact Hne].
  - exists rays'. split; [exact Hrun|]. split; [exact Hsize|].
    intros r res Hres. pose proof Hres as Hr. apply load_Some in Hr as [Hr _].
    rewrite Hlook, Hres.
    destruct (decide (r ∈ strideIndices w (size rays) numWorkers)) as [Hin|Hout];
      destruct (decide (r mod numWorkers = w)) as [Hmod|Hmod]; try reflexivity.
    + apply elem_of_strideIndices_mod in Hin; lia.
    + exfalso. apply Hout. apply elem_of_strideIndices_mod; lia.
Qed.

Lemma ShadowTrace_compute_spec_witness :
  ∃ rays',
    ShadowTrace.compute (H := fixedExterns None false) (sceneWith mirror 1 0)
      F32.half [F32.one; F32.two; F32.three; F32.four] 0 [cameraResult]
    = Some rays' ∧ load rays' 0 = Some cameraResult.
Proof.
  destruct (@ShadowTrace_compute_spec (fixedExterns None false)
              (sceneWith mirror 1 0) F32.half F32.one F32.two F32.three
              [F32.four] 0 [cameraResult])
    as ((rays' & Hrun & _ & Hspec) & _).
  - simpl. lia.
  - simpl. lia.
  - simpl. unfold size. simpl. lia.
  - exists rays'. split; [exact Hrun|]. apply (Hspec 0 cameraResult). reflexivity.
Defined.

(** ** The bounce loop: samples, colour and pixel coordinates *)

Lemma store_Some {A : Type} (a a' : list A) (i : Z) (x : A) :
  store a i x = Some a' → 0 ≤ i < size a ∧ a' = <[Z.to_nat i := x]> a.
Proof.
  unfold store, size. destruct (Z.leb_spec 0 i); [|discriminate].
  destruct (Z.ltb_spec i (Z.of_nat (length a))); [|discriminate].
  simpl. intros Heq. injection Heq as <-. split; [lia | reflexivity].
Qed.

(** What shading does to the pieces of the state, when the material of
    the hit is known. *)
Lemma shade_effects `{Externs} (scene : SceneRef.t) (isect : Isect)
    (st : PathTrace.PathState) (matID : Z) (material : Material.t) :
  load (SceneRef.matIDs scene)
       (HitRecord.geomID (updateHit isect (PathTrace.hit st))) = Some matID →
  load (SceneRef.materials scene) matID = Some material →
  ∃ st',
    PathTrace.shade scene isect st = Some st' ∧
    Rng.upos (PathTrace.rng st') =
      (Rng.upos (PathTrace.rng st) + shadeDraws (Material.type material))%nat ∧
    Rng.gpos (PathTrace.rng st') = Rng.gpos (PathTrace.rng st) ∧
    TraceResult.p (PathTrace.result st') = TraceResult.p (PathTrace.result st) ∧
    PathTrace.color st' =
      (if Material.emissive material
       then Vec3fa.add (PathTrace.color st)
              (Vec3fa.mul (HitRecord.throughput (updateHit isect (PathTrace.hit st)))
                          (Material.emission material))
       else PathTrace.color st).
Proof.
  intros HmatID Hmat. unfold PathTrace.shade. rewrite HmatID. simpl.
  rewrite Hmat. simpl.
  destruct (Material.type material); simpl.
  - eexists. split; [reflexivity|]. simpl. repeat split. lia.
  - eexists. split; [reflexivity|]. simpl. repeat split. lia.
  - destruct (dielectric _ _ _ _) as [dir refracted].
    eexists. split; [reflexivity|]. simpl. repeat split. lia.
  - eexists. split; [reflexivity|]. simpl. repeat split. lia.
Qed.

Lemma roulette_effects `{Externs} (scene : SceneRef.t) (i : Z)
    (st : PathTrace.PathState) :
  let st' := fst (PathTrace.roulette scene i st) in
  Rng.upos (PathTrace.rng st') =
    (Rng.upos (PathTrace.rng st) +
     (if (SceneRef.rouletteStartDepth scene <? i)%Z then 1 else 0))%nat ∧
  Rng.gpos (PathTrace.rng st') = Rng.gpos (PathTrace.rng st) ∧
  PathTrace.result st' = PathTrace.result st ∧
  PathTrace.color st' = PathTrace.color st ∧
  (snd (PathTrace.roulette scene i st) = PathTrace.Break →
   SceneRef.rouletteStartDepth scene < i).
Proof.
  unfold PathTrace.roulette.
  destruct (Z.ltb_spec (SceneRef.rouletteStartDepth scene) i).
  - simpl. destruct (evaluateRoulette _ _); simpl; repeat split; lia.
  - simpl. repeat split; [lia | discriminate].
Qed.

(** X14. A bounce that hits a surface takes from the uniform generator
    exactly two samples for a Diffuse material, one for a Refractive one and
    none for a Specular or unknown one, plus one for the roulette test when
    the bounce index is above [rouletteStartDepth]; it takes no Gaussian
    sample and leaves the pixel coordinate alone. Emission, when the
    material is emissive, is added to the running colour weighted by the
    throughput the hit record had before this bounce's albedo was applied,
    whatever the tag. A hit ends the path only through the roulette test. *)
Theorem bounce_hit_effects `{Externs} (scene : SceneRef.t) (i : Z)
    (st : PathTrace.PathState) (r' : Ray.t) (isect : Isect) (matID : Z)
    (material : Material.t)
    (Hhit : bvh_intersect
              (Ray.set_limits
                 (offsetRay (HitRecord.r (PathTrace.hit st))
                            (HitRecord.normal (PathTrace.hit st)))
                 F32.zero F32.infinity) = (r', Some isect))
    (HmatID : load (SceneRef.matIDs scene)
                (HitRecord.geomID
                   (updateHit isect (HitRecord.set_r (PathTrace.hit st) r')))
              = Some matID)
    (Hmat : load (SceneRef.materials scene) matID = Some material) :
  ∃ st' flow,
    PathTrace.bounce scene i st = Some (st', flow) ∧
    Rng.upos (PathTrace.rng st') =
      (Rng.upos (PathTrace.rng st) + shadeDraws (Material.type material) +
       (if (SceneRef.rouletteStartDepth scene <? i)%Z then 1 else 0))%nat ∧
    Rng.gpos (PathTrace.rng st') = Rng.gpos (PathTrace.rng st) ∧
    TraceResult.p (PathTrace.result st') = TraceResult.p (PathTrace.result st) ∧
    PathTrace.color st' =
      (if Material.emissive material
       then Vec3fa.add (PathTrace.color st)
              (Vec3fa.mul
                 (HitRecord.throughput
                    (updateHit isect (HitRecord.set_r (PathTrace.hit st) r')))
                 (Material.emission material))
       else PathTrace.color st) ∧
    (flow = PathTrace.Break → SceneRef.rouletteStartDepth scene < i).
Proof.
  set (st1 := PathTrace.set_hit st (HitRecord.set_r (PathTrace.hit st) r')).
  destruct (shade_effects scene isect st1 matID material HmatID Hmat)
    as (st2 & Hshade & Hu & Hg & Hp & Hc).
  pose proof (roulette_effects scene i st2) as (Hu' & Hg' & Hres' & Hc' & Hflow).
  exists (fst (PathTrace.roulette scene i st2)), (snd (PathTrace.roulette scene i st2)).
  split.
  - unfold PathTrace.bounce. rewrite Hhit. fold st1. rewrite Hshade. simpl.
    destruct (PathTrace.roulette scene i st2). reflexivity.
  - cbv zeta in Hu', Hg', Hres', Hc'.
    rewrite Hu', Hg', Hres', Hc', Hu, Hg, Hp, Hc. repeat split. exact Hflow.
Qed.

Lemma bounce_hit_effects_witness :
  ∃ st' flow,
    PathTrace.bounce (H := fixedExterns (Some 0) true)
      (sceneWith mirror 3 0) 1 cameraState = Some (st', flow) ∧
    Rng.upos (PathTrace.rng st') = 1%nat ∧
    PathTrace.color st' = vzero.
Proof.
  destruct (@bounce_hit_effects (fixedExterns (Some 0) true)
              (sceneWith mirror 3 0) 1 cameraState (HitRecord.r cameraHit)
              0 0 mirror eq_refl eq_refl eq_refl)
    as (st' & flow & Hstep & Hu & _ & _ & Hc & _).
  exists st', flow. split; [exact Hstep|]. split; [exact Hu | exact Hc].
Defined.

(** What any completed bounce keeps. *)
Lemma bounce_keeps `{Externs} (scene : SceneRef.t) (i : Z)
    (st st' : PathTrace.PathState) (flow : PathTrace.Flow) :
  PathTrace.bounce scene i st = Some (st', flow) →
  (Rng.upos (PathTrace.rng st) ≤ Rng.upos (PathTrace.rng st')
   ≤ Rng.upos (PathTrace.rng st) + 3)%nat ∧
  Rng.gpos (PathTrace.rng st') = Rng.gpos (PathTrace.rng st) ∧
  TraceResult.p (PathTrace.result st') = TraceResult.p (PathTrace.result st) ∧
  (noEmitters scene → PathTrace.color st' = PathTrace.color st) ∧
  (TraceResult.rgb (PathTrace.result st') = TraceResult.rgb (PathTrace.result st) ∨
   poisoned (TraceResult.rgb (PathTrace.result st'))).
Proof.
  unfold PathTrace.bounce.
  destruct (bvh_intersect _) as [r3 [isect|]].
  - set (st1 := PathTrace.set_hit st (HitRecord.set_r (PathTrace.hit st) r3)).
    destruct (PathTrace.shade scene isect st1) as [st2|] eqn:Hshade; [|discriminate].
    simpl. intros Hstep. injection Hstep as Hst'.
    pose proof (shade_rgb _ _ _ _ Hshade) as Hrgb.
    pose proof (roulette_effects scene i st2) as (Hu' & Hg' & Hres' & Hc' & _).
    rewrite Hst' in Hu', Hg', Hres', Hc'. cbv zeta in Hu', Hg', Hres', Hc'.
    cbn [fst] in Hu', Hg', Hres', Hc'.
    unfold PathTrace.shade in Hshade.
    destruct (load (SceneRef.matIDs scene) _) as [matID|] eqn:HmatID;
      [|discriminate].
    simpl in Hshade.
    destruct (load (SceneRef.materials scene) matID) as [material|] eqn:Hmat;
      [|discriminate].
    destruct (shade_effects scene isect st1 matID material HmatID Hmat)
      as (st2' & Hshade' & Hu & Hg & Hp & Hc).
    unfold PathTrace.shade in Hshade'. rewrite HmatID in Hshade'.
    simpl in Hshade'. rewrite Hmat in Hshade'. simpl in Hshade, Hshade'.
    rewrite Hshade in Hshade'. injection Hshade' as <-.
    rewrite Hu', Hg', Hres', Hc', Hu, Hg, Hp.
    split; [|split; [reflexivity|split; [reflexivity|split]]].
    + assert (shadeDraws (Material.type material) ≤ 2)%nat
        by (destruct (Material.type material); simpl; lia).
      destruct (SceneRef.rouletteStartDepth scene <? i); simpl; lia.
    + intros Hno. rewrite Hc.
      apply load_Some in Hmat as [_ Hmat].
      unfold noEmitters in Hno. rewrite Forall_forall in Hno.
      rewrite (Hno material); [reflexivity|].
      apply list_elem_of_lookup. eauto.
    + exact Hrgb.
  - intros Hstep. injection Hstep as <- _. simpl.
    split; [lia|]. repeat split. left. reflexivity.
Qed.

Lemma bounceLoop_keeps `{Externs} (scene : SceneRef.t) (n : nat) :
  ∀ (i : Z) (st st' : PathTrace.PathState),
    PathTrace.bounceLoop scene n i st = Some st' →
    (Rng.upos (PathTrace.rng st) ≤ Rng.upos (PathTrace.rng st')
     ≤ Rng.upos (PathTrace.rng st) + 3 * n)%nat ∧
    Rng.gpos (PathTrace.rng st') = Rng.gpos (PathTrace.rng st) ∧
    TraceResult.p (PathTrace.result st') = TraceResult.p (PathTrace.result st) ∧
    (noEmitters scene → PathTrace.color st' = PathTrace.color st) ∧
    (TraceResult.rgb (PathTrace.result st') = TraceResult.rgb (PathTrace.result st) ∨
     poisoned (TraceResult.rgb (PathTrace.result st'))).
Proof.
  induction n as [|n IH]; intros i st st' Hloop.
  - injection Hloop as <-. split; [lia|]. repeat split. left. reflexivity.
  - simpl in Hloop.
    destruct (PathTrace.bounce scene i st) as [[st1 flow]|] eqn:Hstep;
      [|discriminate].
    simpl in Hloop.
    destruct (bounce_keeps _ _ _ _ _ Hstep) as (Hu & Hg & Hp & Hc & Hrgb).
    destruct flow.
    + destruct (IH _ _ _ Hloop) as (Hu' & Hg' & Hp' & Hc' & Hrgb').
      split; [lia|]. split; [congruence|]. split; [congruence|]. split.
      * intros Hno. rewrite Hc', Hc by assumption. reflexivity.
      * destruct Hrgb' as [Heq|Hpo]; [|right; exact Hpo].
        rewrite Heq. exact Hrgb.
    + injection Hloop as <-. split; [lia|]. repeat split; assumption.
Qed.

(** X15. A completed bounce loop of [n] iterations has taken at most
    [3 n] uniform samples and no Gaussian one, has left the pixel coordinate
    of the entry as it was, and has either left the accumulated colour as it
    was or made every component of it NaN. *)
Theorem bounceLoop_budget `{Externs} (scene : SceneRef.t) (n : nat) (i : Z)
    (st st' : PathTrace.PathState)
    (Hloop : PathTrace.bounceLoop scene n i st = Some st') :
  (Rng.upos (PathTrace.rng st) ≤ Rng.upos (PathTrace.rng st')
   ≤ Rng.upos (PathTrace.rng st) + 3 * n)%nat ∧
  Rng.gpos (PathTrace.rng st') = Rng.gpos (PathTrace.rng st) ∧
  TraceResult.p (PathTrace.result st') = TraceResult.p (PathTrace.result st) ∧
  (TraceResult.rgb (PathTrace.result st') = TraceResult.rgb (PathTrace.result st) ∨
   poisoned (TraceResult.rgb (PathTrace.result st'))).
Proof.
  destruct (bounceLoop_keeps scene n i st st' Hloop) as (Hu & Hg & Hp & _ & Hrgb).
  auto.
Qed.

Lemma bounceLoop_budget_witness :
  (Rng.upos (PathTrace.rng mirrorPathEnd) ≤ 9)%nat ∧
  Rng.gpos (PathTrace.rng mirrorPathEnd) = 0%nat.
Proof.
  pose proof (@bounceLoop_budget (fixedExterns (Some 0) false)
                (sceneWith mirror 3 0) 3 0 cameraState mirrorPathEnd
                ltac:(vm_compute; reflexivity))
    as (Hu & Hg & _).
  split; [exact (proj2 Hu) | exact Hg].
Defined.

(** What tracing one ray does to the stream. *)
Lemma tracePath_effects `{Externs} (scene : SceneRef.t) (r : Z)
    (rays rays' : list TraceResult.t) (g g' : Rng.t) :
  PathTrace.tracePath scene r (rays, g) = Some (rays', g') →
  ∃ res res' c,
    load rays r = Some res ∧ load rays' r = Some res' ∧
    size rays' = size rays ∧
    (∀ j, j ≠ r → load rays' j = load rays j) ∧
    TraceResult.p res' = TraceResult.p res ∧
    (TraceResult.rgb res' = Vec3fa.add (TraceResult.rgb res) c ∨
     poisoned (TraceResult.rgb res')) ∧
    (noEmitters scene → c = vzero) ∧
    Rng.gpos g' = Rng.gpos g ∧
    (Rng.upos g ≤ Rng.upos g'
     ≤ Rng.upos g + 3 * Z.to_nat (SceneRef.maxPathLength scene))%nat.
Proof.
  unfold PathTrace.tracePath. intros Hrun.
  destruct (load rays r) as [res|] eqn:Hres; [|discriminate].
  simpl in Hrun.
  destruct (PathTrace.bounceLoop scene _ 0 _) as [st1|] eqn:Hloop; [|discriminate].
  simpl in Hrun.
  destruct (store rays r _) as [rays1|] eqn:Hstore; [|discriminate].
  simpl in Hrun. injection Hrun as <- <-.
  apply store_Some in Hstore as [Hr ->].
  destruct (bounceLoop_keeps _ _ _ _ _ Hloop) as (Hu & Hg & Hp & Hc & Hrgb).
  simpl in Hu, Hg, Hp, Hc, Hrgb.
  eexists res, _, (PathTrace.color st1).
  split; [reflexivity|]. split; [apply load_insert_eq; exact Hr|].
  split; [apply size_insert|].
  split; [intros j Hne; apply load_insert_ne; [lia | exact Hne]|].
  split; [exact Hp|]. split; [|split; [exact Hc|split; [exact Hg | exact Hu]]].
  destruct Hrgb as [Heq|Hpo].
  - left. simpl. rewrite Heq. reflexivity.
  - right. simpl. apply poisoned_add. exact Hpo.
Qed.

(** X16. In a scene none of whose materials is emissive, tracing a ray
    adds nothing: the colour stored for the ray is its previous colour plus
    (0, 0, 0), unless an unknown material has made it NaN. The trace writes
    that one entry only and keeps its pixel coordinate. *)
Theorem tracePath_without_emitters `{Externs} (scene : SceneRef.t) (r : Z)
    (rays rays' : list TraceResult.t) (g g' : Rng.t)
    (Hno : noEmitters scene)
    (Hrun : PathTrace.tracePath scene r (rays, g) = Some (rays', g')) :
  ∃ res res',
    load rays r = Some res ∧ load rays' r = Some res' ∧
    (TraceResult.rgb res' = Vec3fa.add (TraceResult.rgb res) vzero ∨
     poisoned (TraceResult.rgb res')) ∧
    TraceResult.p res' = TraceResult.p res ∧
    size rays' = size rays ∧
    ∀ j, j ≠ r → load rays' j = load rays j.
Proof.
  destruct (tracePath_effects scene r rays rays' g g' Hrun)
    as (res & res' & c & Hres & Hres' & Hsize & Hframe & Hp & Hrgb & Hc & _).
  exists res, res'. rewrite (Hc Hno) in Hrgb. auto 10.
Qed.

Lemma tracePath_without_emitters_witness :
  ∃ res',
    load (fst mirrorTraceEnd) 0 = Some res' ∧
    (TraceResult.rgb res' = Vec3fa.add vzero vzero ∨
     poisoned (TraceResult.rgb res')).
Proof.
  destruct (@tracePath_without_emitters (fixedExterns (Some 0) true)
              (sceneWith mirror 3 0) 0 [cameraResult] (fst mirrorTraceEnd)
              freshRng (snd mirrorTraceEnd)
              ltac:(repeat constructor) ltac:(vm_compute; reflexivity))
    as (res & res' & Hres & Hres' & Hrgb & _).
  injection Hres as <-. exists res'. split; [exact Hres' | exact Hrgb].
Defined.

(** ** The whole path-trace vertex *)

(** A property indexed by the number of iterations done. *)
Lemma foldOpt_track {S : Type} (P : nat → S → Prop) (body : Z → S → option S) :
  ∀ (l : list Z) (k : nat) (s s' : S),
    (∀ r k0 s0 s1, r ∈ l → P k0 s0 → body r s0 = Some s1 → P (Datatypes.S k0) s1) →
    P k s → foldOpt body l s = Some s' → P (k + length l)%nat s'.
Proof.
  induction l as [|r l IH]; intros k s s' Hbody HP Hrun.
  - injection Hrun as <-. simpl. rewrite Nat.add_0_r. exact HP.
  - simpl in Hrun. destruct (body r s) as [s1|] eqn:Hs1; [|discriminate].
    simpl in Hrun. simpl length. rewrite <- Nat.add_succ_comm.
    eapply IH; [| |exact Hrun].
    + intros r' k0 s0 s2 Hr'. apply Hbody. apply elem_of_cons. auto.
    + eapply Hbody; [apply elem_of_cons; auto | exact HP | exact Hs1].
Qed.

Lemma streamKept_start `{Externs} (w : Z) (c d : nat) (s : Stream) :
  streamKept w c d s 0 s.
Proof. unfold streamKept. repeat split; lia. Qed.

Lemma sampleCameraRays_kept `{Externs} (w : Z) (iw ih : float)
    (aa : float * float) (fov : float) (s s' : Stream) :
  0 < numWorkers → 0 ≤ w → size (fst s) + numWorkers ≤ 2 ^ 32 →
  sampleCameraRays w iw ih aa fov s = Some s' →
  streamKept w 0 1 s (length (strideIndices w (size (fst s)) numWorkers)) s'.
Proof.
  intros HW Hw Hfit. unfold sampleCameraRays. destruct (sincos _) as [sn cs].
  rewrite workerLoop_stride by (unfold size in *; lia). intros Hrun.
  refine (foldOpt_track (streamKept w 0 1 s) _ _ 0%nat s s' _
            (streamKept_start _ _ _ _) Hrun).
  intros r k [rays0 g0] [rays1 g1] Hin (Hsize & Hout & Hp & Hg & Hu) Hstep.
  cbn [fst snd] in *. unfold sampleCameraRay in Hstep.
  destruct (load rays0 r) as [res|] eqn:Hres; [|discriminate].
  simpl in Hstep. destruct (store rays0 r _) as [rays2|] eqn:Hstore; [|discriminate].
  simpl in Hstep. injection Hstep as <- <-.
  apply store_Some in Hstore as [Hr ->].
  unfold streamKept. cbn [fst snd Rng.upos Rng.gpos].
  rewrite size_insert. split; [exact Hsize|]. split; [|split; [|split; [lia|lia]]].
  - intros j Hj. rewrite load_insert_ne; [apply Hout, Hj | lia | congruence].
  - intros j. rewrite <- Hp. destruct (Z.eq_dec j r) as [->|Hne].
    + rewrite load_insert_eq, Hres by lia. reflexivity.
    + rewrite load_insert_ne by lia. reflexivity.
Qed.

Lemma tracePaths_kept `{Externs} (scene : SceneRef.t) (w : Z) (s s' : Stream) :
  0 < numWorkers → 0 ≤ w → size (fst s) + numWorkers ≤ 2 ^ 32 →
  PathTrace.tracePaths scene w s = Some s' →
  streamKept w (3 * Z.to_nat (SceneRef.maxPathLength scene)) 0 s
    (length (strideIndices w (size (fst s)) numWorkers)) s'.
Proof.
  intros HW Hw Hfit. unfold PathTrace.tracePaths.
  rewrite workerLoop_stride by (unfold size in *; lia). intros Hrun.
  refine (foldOpt_track (streamKept w _ 0 s) _ _ 0%nat s s' _
            (streamKept_start _ _ _ _) Hrun).
  intros r k [rays0 g0] [rays1 g1] Hin (Hsize & Hout & Hp & Hg & Hu) Hstep.
  cbn [fst snd] in *.
  destruct (tracePath_effects _ _ _ _ _ _ Hstep)
    as (res & res' & c & Hres & Hres' & Hsize' & Hframe & Hp' & _ & _ & Hg' & Hu').
  unfold streamKept. cbn [fst snd].
  split; [congruence|]. split; [|split; [|split; [lia|lia]]].
  - intros j Hj. rewrite Hframe; [apply Hout, Hj | congruence].
  - intros j. rewrite <- Hp. destruct (Z.eq_dec j r) as [->|Hne].
    + rewrite Hres, Hres'. simpl. rewrite Hp'. reflexivity.
    + rewrite Hframe by exact Hne. reflexivity.
Qed.

(** X17. When worker [w] completes the path-trace vertex with [count]
    samples per ray, the ray array has kept its size, the entries of the
    other workers are exactly what they were, and no entry has changed its
    pixel coordinate. The worker has taken from its generator exactly
    [count] Gaussian pairs per ray of its share and at most
    [3 * maxPathLength] uniform samples per ray and sample. *)
Theorem PathTrace_compute_frame `{Externs} (scene : SceneRef.t) (count w : Z)
    (rays rays' : list TraceResult.t) (g g' : Rng.t)
    (HW : 0 < numWorkers) (Hw : 0 ≤ w < numWorkers)
    (Hfit : size rays + numWorkers ≤ 2 ^ 32)
    (Hrun : PathTrace.compute scene count w (rays, g) = Some (rays', g')) :
  let share := length (strideIndices w (size rays) numWorkers) in
  size rays' = size rays ∧
  (∀ j, j mod numWorkers ≠ w → load rays' j = load rays j) ∧
  (∀ j, TraceResult.p <$> load rays' j = TraceResult.p <$> load rays j) ∧
  Rng.gpos g' = (Rng.gpos g + Z.to_nat count * share)%nat ∧
  (Rng.upos g ≤ Rng.upos g'
   ≤ Rng.upos g
     + Z.to_nat count * (3 * Z.to_nat (SceneRef.maxPathLength scene) * share))%nat.
Proof.
  intros share. unfold PathTrace.compute in Hrun.
  set (mpl := Z.to_nat (SceneRef.maxPathLength scene)) in *.
  assert (∀ n s s',
            size (fst s) = size rays →
            PathTrace.sampleLoop scene w n s = Some s' →
            size (fst s') = size rays ∧
            (∀ j, j ∉ strideIndices w (size rays) numWorkers →
                  load (fst s') j = load (fst s) j) ∧
            (∀ j, TraceResult.p <$> load (fst s') j = TraceResult.p <$> load (fst s) j) ∧
            Rng.gpos (snd s') = (Rng.gpos (snd s) + n * share)%nat ∧
            (Rng.upos (snd s) ≤ Rng.upos (snd s')
             ≤ Rng.upos (snd s) + n * (3 * mpl * share))%nat) as Hloop.
  { induction n as [|n IH]; intros s s' Hsize Hloop.
    - injection Hloop as <-. repeat split; lia.
    - simpl in Hloop.
      destruct (sampleCameraRays w _ _ _ _ s) as [s1|] eqn:Hgen; [|discriminate].
      simpl in Hloop.
      destruct (PathTrace.tracePaths scene w s1) as [s2|] eqn:Htrace; [|discriminate].
      simpl in Hloop.
      apply sampleCameraRays_kept in Hgen as (Hs1 & Ho1 & Hp1 & Hg1 & Hu1);
        [|lia..]. rewrite Hsize in *.
      apply tracePaths_kept in Htrace as (Hs2 & Ho2 & Hp2 & Hg2 & Hu2);
        [|lia..]. rewrite Hs1 in *. fold share in Hg1, Hu1, Hg2, Hu2. fold mpl in Hu2.
      destruct (IH s2 s' ltac:(congruence) Hloop) as (Hs3 & Ho3 & Hp3 & Hg3 & Hu3).
      split; [exact Hs3|]. split; [|split; [|split; [lia|lia]]].
      + intros j Hj. rewrite Ho3, Ho2, Ho1 by exact Hj. reflexivity.
      + intros j. rewrite Hp3, Hp2, Hp1. reflexivity. }
  destruct (Hloop _ (rays, g) _ eq_refl Hrun) as (Hs & Ho & Hp & Hg & Hu).
  cbn [fst snd] in *. split; [exact Hs|]. split; [|auto].
  intros j Hj. apply Ho. intros Hin.
  apply elem_of_strideIndices_mod in Hin; lia.
Qed.

Lemma PathTrace_compute_frame_witness :
  load (fst twoSampleEnd) 1 = load [cameraResult; escapedResult] 1 ∧
  Rng.gpos (snd twoSampleEnd) = 2%nat.
Proof.
  pose proof (@PathTrace_compute_frame (fixedExterns (Some 0) true)
                (sceneWith mirror 3 0) 2 0 [cameraResult; escapedResult]
                (fst twoSampleEnd) freshRng (snd twoSampleEnd)) as Hframe.
  simpl numWorkers in Hframe.
  destruct Hframe as (_ & Hother & _ & Hg & _);
    [lia | lia | unfold size; simpl; lia | vm_compute; reflexivity |].
  split; [apply (Hother 1); discriminate | exact Hg].
Defined.

(** ** A share without rays *)

(** X18. A worker whose index is not below the number of rays (more
    workers than rays, or an empty array) returns from every vertex with the
    arrays and its generator exactly as they were; the shadow tracer still
    needs its three light coordinates. *)
Theorem empty_share_is_noop `{Externs} (w : Z) (rays : list TraceResult.t)
    (g : Rng.t) (Hw : size rays ≤ w) :
  (∀ iw ih aa fov, sampleCameraRays w iw ih aa fov (rays, g) = Some (rays, g)) ∧
  (∀ scene count, PathTrace.compute scene count w (rays, g) = Some (rays, g)) ∧
  (∀ scene amb lx ly lz more,
     ShadowTrace.compute scene amb (lx :: ly :: lz :: more) w rays = Some rays) ∧
  (∀ az out, PreProcessEscapedRays.compute rays az w out = Some out) ∧
  (∀ bgr, PostProcessEscapedRays.compute bgr w rays = Some rays).
Proof.
  assert (∀ (S : Type) (body : Z → S → option S) (W : Z) (s : S),
            workerLoop (loopFuel (size rays)) body (size rays) W w s = Some s)
    as Hskip.
  { intros S body W s. unfold loopFuel. simpl.
    destruct (Z.ltb_spec w (size rays)); [lia | reflexivity]. }
  assert (∀ iw ih aa fov, sampleCameraRays w iw ih aa fov (rays, g) = Some (rays, g))
    as Hgen.
  { intros iw ih aa fov. unfold sampleCameraRays. destruct (sincos _).
    apply Hskip. }
  split; [exact Hgen|]. split; [|split; [|split]].
  - intros scene count. unfold PathTrace.compute.
    induction (Z.to_nat count) as [|n IH]; [reflexivity|].
    simpl. rewrite Hgen. simpl. unfold PathTrace.tracePaths.
    cbn [fst]. rewrite Hskip. simpl. exact IH.
  - intros scene amb lx ly lz more. unfold ShadowTrace.compute.
    change (load (lx :: ly :: lz :: more) 0) with (Some lx).
    change (load (lx :: ly :: lz :: more) 1) with (Some ly).
    change (load (lx :: ly :: lz :: more) 2) with (Some lz).
    cbn [mbind option_bind]. apply Hskip.
  - intros az out. apply Hskip.
  - intros bgr. apply Hskip.
Qed.

Lemma empty_share_is_noop_witness :
  PostProcessEscapedRays.compute (H := fixedExterns None false) [] 3
    [escapedResult; cameraResult] = Some [escapedResult; cameraResult] ∧
  PathTrace.compute (H := fixedExterns None false) (sceneWith mirror 3 0) 4 0
    ([], freshRng) = Some ([], freshRng).
Proof.
  split.
  - apply (@empty_share_is_noop (fixedExterns None false) 3
             [escapedResult; cameraResult] freshRng).
    unfold size. simpl. lia.
  - apply (@empty_share_is_noop (fixedExterns None false) 0 [] freshRng).
    unfold size. simpl. lia.
Defined.

(** ** Hit flags *)

Lemma test_ERROR (h : HitRecord.t) : HitRecord.test h HitRecord.ERROR = errored h.
Proof.
  unfold HitRecord.test, errored, HitRecord.ERROR.
  set (f := HitRecord.flags h).
  assert (Z.land f 1 = if Z.testbit f 0 then 1 else 0) as ->.
  { apply Z.bits_inj'. intros n Hn. rewrite Z.land_spec.
    change 1 with (2 ^ 0) at 1. rewrite Z.pow2_bits_eqb by lia.
    destruct (Z.eqb_spec 0 n) as [<-|Hne].
    - destruct (Z.testbit f 0); reflexivity.
    - rewrite andb_false_r. destruct (Z.testbit f 0).
      + change 1 with (2 ^ 0). rewrite Z.pow2_bits_eqb by lia.
        symmetry. apply Z.eqb_neq. exact Hne.
      + symmetry. apply Z.bits_0. }
  destruct (Z.testbit f 0); reflexivity.
Qed.

Lemma lor_16_bits (a b : Z) :
  0 ≤ a < 2 ^ 16 → 0 ≤ b < 2 ^ 16 → 0 ≤ Z.lor a b < 2 ^ 16.
Proof.
  intros Ha Hb. assert (0 ≤ Z.lor a b) as H0 by (apply Z.lor_nonneg; lia).
  split; [exact H0|].
  destruct (Z.eq_dec (Z.lor a b) 0) as [->|Hne]; [reflexivity|].
  apply Z.log2_lt_pow2; [lia|]. rewrite Z.log2_lor by lia.
  apply Z.max_lub_lt.
  - destruct (Z.eq_dec a 0) as [->|]; [reflexivity|]. apply Z.log2_lt_pow2; lia.
  - destruct (Z.eq_dec b 0) as [->|]; [reflexivity|]. apply Z.log2_lt_pow2; lia.
Qed.

(** X19. Raising a flag keeps the flag word within its 16 bits, is seen
    by the test of that flag, does not disturb the other flag and is
    idempotent; a newly constructed hit record and one after [clearFlags]
    have neither flag set. *)
Theorem HitRecord_flags_algebra (h : HitRecord.t)
    (Hrange : 0 ≤ HitRecord.flags h < 2 ^ 16) :
  0 ≤ HitRecord.flags (HitRecord.raise h HitRecord.ERROR) < 2 ^ 16 ∧
  0 ≤ HitRecord.flags (HitRecord.raise h HitRecord.ESCAPED) < 2 ^ 16 ∧
  HitRecord.test (HitRecord.raise h HitRecord.ERROR) HitRecord.ERROR = true ∧
  HitRecord.test (HitRecord.raise h HitRecord.ESCAPED) HitRecord.ESCAPED = true ∧
  HitRecord.test (HitRecord.raise h HitRecord.ERROR) HitRecord.ESCAPED
    = HitRecord.test h HitRecord.ESCAPED ∧
  HitRecord.test (HitRecord.raise h HitRecord.ESCAPED) HitRecord.ERROR
    = HitRecord.test h HitRecord.ERROR ∧
  HitRecord.raise (HitRecord.raise h HitRecord.ESCAPED) HitRecord.ESCAPED
    = HitRecord.raise h HitRecord.ESCAPED ∧
  HitRecord.raise (HitRecord.raise h HitRecord.ERROR) HitRecord.ERROR
    = HitRecord.raise h HitRecord.ERROR ∧
  HitRecord.test (HitRecord.clearFlags h) HitRecord.ESCAPED = false ∧
  HitRecord.test (HitRecord.clearFlags h) HitRecord.ERROR = false ∧
  ∀ o d junk,
    HitRecord.test (HitRecord.ctor o d junk) HitRecord.ESCAPED = false ∧
    HitRecord.test (HitRecord.ctor o d junk) HitRecord.ERROR = false.
Proof.
  split; [apply lor_16_bits; [exact Hrange | unfold HitRecord.ERROR; lia]|].
  split; [apply lor_16_bits; [exact Hrange | unfold HitRecord.ESCAPED; lia]|].
  rewrite !test_ERROR, !test_ESCAPED.
  split; [apply raise_ERROR|]. split; [apply raise_ESCAPED|].
  unfold escaped, errored, HitRecord.raise, HitRecord.set_flags,
    HitRecord.ERROR, HitRecord.ESCAPED.
  cbn [HitRecord.flags HitRecord.r HitRecord.primID HitRecord.normal
       HitRecord.throughput HitRecord.geomID].
  rewrite !Z.lor_spec.
  change (Z.testbit 1 1) with false. change (Z.testbit 2 0) with false.
  rewrite !orb_false_r.
  split; [reflexivity|]. split; [reflexivity|].
  rewrite <- !Z.lor_assoc, !Z.lor_diag. repeat split.
Qed.

Lemma HitRecord_flags_algebra_witness :
  HitRecord.flags (HitRecord.raise (HitRecord.raise cameraHit HitRecord.ESCAPED)
                                   HitRecord.ERROR) = 3 ∧
  HitRecord.test (HitRecord.raise cameraHit HitRecord.ERROR) HitRecord.ESCAPED = false.
Proof.
  split; [reflexivity|].
  pose proof (HitRecord_flags_algebra cameraHit ltac:(simpl; lia))
    as (_ & _ & _ & _ & Hkeep & _).
  rewrite Hkeep. reflexivity.
Defined.

(** ** maxi *)

Lemma maxi_selects_minimum_witness :
  ∃ m, Vec3fa.maxc (Vec3fa.mk F32.three F32.one F32.two) = Some m ∧
       F32.le m F32.three = true ∧ F32.le m F32.one = true ∧
       F32.le m F32.two = true.
Proof.
  apply (maxi_selects_minimum (Vec3fa.mk F32.three F32.one F32.two)).
  reflexivity.
Defined.

(** ** Pixel coordinates *)





(** ** The uniform sample *)

Lemma add_half_range (u : float) :
  F32.valid u = true →
  F32.le (F32.opp F32.half) u = true → F32.le u F32.half = true →
  F32.le F32.zero (F32.add u F32.half) = true ∧
  F32.le (F32.add u F32.half) F32.one = true.
Proof.
  intros Hvalid Hlo Hhi. destruct u as [s|s| |s m e].
  - destruct s; split; reflexivity.
  - destruct s; discriminate.
  - discriminate.
  - apply valid_digits in Hvalid. rewrite fx_eq in Hvalid.
    pose proof (digits2_bounds m) as [Hmlo Hmhi].
    assert (Hm24 : Zpos m < 2 ^ 24).
    { eapply Z.lt_le_trans; [exact Hmhi|]. apply Z.pow_le_mono_r; lia. }
    change (2 ^ 24) with 16777216 in Hm24.
    assert (Hex : e < -24 ∨ (e = -24 ∧ Zpos m ≤ 8388608)).
    { destruct s.
      - unfold F32.le, F32.opp, F32.half, SFleb, SFopp, SFcompare in Hlo.
        destruct (Z.compare_spec (-24) e) as [<-| |]; [right|discriminate|left; lia].
        split; [reflexivity|].
        change (Pos.compare_cont Eq 8388608 m) with (Pos.compare 8388608 m) in Hlo.
        destruct (Pos.compare_spec 8388608 m); simpl in Hlo; try discriminate; lia.
      - unfold F32.le, F32.half, SFleb, SFcompare in Hhi.
        destruct (Z.compare_spec e (-24)) as [->| |]; [right|left; lia|discriminate].
        split; [reflexivity|].
        change (Pos.compare_cont Eq m 8388608) with (Pos.compare m 8388608) in Hhi.
        destruct (Pos.compare_spec m 8388608); try discriminate; lia. }
    destruct Hex as [He | [-> Hm]].
    + (* the sum is formed at the exponent of [u] *)
      unfold F32.add, F32.prec, F32.emax, SFadd, F32.half, F32.le, F32.zero, F32.one.
      rewrite Z.min_l by lia.
      assert (Hsa : shl_align m e e = (m, e))
        by (unfold shl_align; rewrite Z.sub_diag; reflexivity).
      rewrite !Hsa. cbn [fst].
      unfold shl_align. destruct (e - -24) as [|p|d] eqn:Hsh; [lia|lia|].
      cbn [fst]. rewrite iter_xO.
      assert (Hd : Zpos d = -24 - e) by lia.
      assert (2 ≤ 2 ^ Zpos d) by (apply (Z.pow_le_mono_r 2 1); lia).
      assert (Hpow : 2 ^ (-23 - e) = 2 * 2 ^ Zpos d).
      { replace (-23 - e) with (Z.succ (Zpos d)) by lia.
        apply Z.pow_succ_r. lia. }
      destruct s; cbn [cond_Zopp].
      * destruct (- Zpos m + 8388608 * 2 ^ Zpos d) as [|M|M] eqn:HM;
          [split; reflexivity| |lia].
        cbn [binary_normalize].
        apply (binary_round_below M 8388608 e (-23) e);
          try reflexivity; try lia.
        rewrite Z.sub_diag, Hpow. change (2 ^ 0) with 1. lia.
      * destruct (Zpos m + 8388608 * 2 ^ Zpos d) as [|M|M] eqn:HM; [lia| |lia].
        cbn [binary_normalize].
        apply (binary_round_below M 8388608 e (-23) e);
          try reflexivity; try lia.
        rewrite Z.sub_diag, Hpow. change (2 ^ 0) with 1. lia.
    + (* [u] has the exponent of one half *)
      assert (Zpos (digits2_pos m) = 24) as Hd24 by lia.
      rewrite Hd24 in Hmlo. change (2 ^ (24 - 1)) with 8388608 in Hmlo.
      assert (m = 8388608%positive) as -> by lia.
      destruct s; split; reflexivity.
Qed.

(** X21. If the value the hardware generator hands out is a float between
    minus one half and one half, [hw_uniform_0_1] returns a float between 0
    and 1, both ends included, and has taken exactly one value from the
    uniform tape. The upper end is reached not only from one half: the
    largest float below one half also gives exactly 1. *)
Theorem hw_uniform_0_1_range `{Externs} (g : Rng.t)
    (Hvalid : F32.valid (urand_f32 (Rng.upos g)) = true)
    (Hlo : F32.le (F32.opp F32.half) (urand_f32 (Rng.upos g)) = true)
    (Hhi : F32.le (urand_f32 (Rng.upos g)) F32.half = true) :
  F32.le F32.zero (fst (hw_uniform_0_1 g)) = true ∧
  F32.le (fst (hw_uniform_0_1 g)) F32.one = true ∧
  snd (hw_uniform_0_1 g) = Rng.mk (S (Rng.upos g)) (Rng.gpos g) ∧
  F32.lt belowHalf F32.half = true ∧ F32.add belowHalf F32.half = F32.one.
Proof.
  destruct (add_half_range _ Hvalid Hlo Hhi) as [H0 H1].
  unfold hw_uniform_0_1. cbn [fst snd]. repeat split; assumption.
Qed.

Lemma hw_uniform_0_1_range_witness :
  F32.le F32.zero (fst (hw_uniform_0_1 (H := fixedExterns None false) freshRng)) = true ∧
  F32.le (fst (hw_uniform_0_1 (H := fixedExterns None false) freshRng)) F32.one = true.
Proof.
  pose proof (@hw_uniform_0_1_range (fixedExterns None false) freshRng
                eq_refl eq_refl eq_refl) as (H0 & H1 & _).
  split; [exact H0 | exact H1].
Defined.

(** ** The range of the texture coordinate v *)

Lemma binary_round_aux_opp (m e : Z) (l : location) :
  binary_round_aux 24 128 true m e l = SFopp (binary_round_aux 24 128 false m e l).
Proof.
  unfold binary_round_aux.
  destruct (shr_fexp 24 128 m e l) as [mrs1 e1].
  destruct (shr_fexp 24 128 _ e1 loc_Exact) as [mrs2 e2].
  destruct (shr_m mrs2); try reflexivity.
  destruct (Z.leb e2 (128 - 24)); reflexivity.
Qed.

Lemma binary_round_mantissa (M : positive) (e : Z) :
  smallMantissa (binary_round 24 128 false M e).
Proof.
  pose proof (digits2_bounds M) as [_ HM].
  unfold binary_round. change (fexp 24 128) with fx.
  set (D := Zpos (digits2_pos M)) in *.
  assert (Hfx : fx (D + e) = Z.max (D + e - 24) (-149)) by apply fx_eq.
  unfold shl_align. destruct (fx (D + e) - e) as [|n|d] eqn:Hsh.
  - rewrite binary_round_aux_noshift by (fold D; lia).
    destruct (e <=? 104); [|exact I]. simpl.
    eapply Z.lt_le_trans; [exact HM|]. apply Z.pow_le_mono_r; lia.
  - destruct (binary_round_aux_shift M e n) as (m2 & _ & Hm2 & ->);
      [fold D; exact Hsh|].
    destruct m2 as [|q|q]; try exact I.
    destruct (Pos.eqb_spec q 16777216) as [->|Hq].
    + destruct (_ <=? 104); [reflexivity | exact I].
    + destruct (_ <=? 104); [|exact I]. simpl.
      change (2 ^ 24) with 16777216 in *.
      assert (Zpos q ≠ 16777216) by congruence. lia.
  - rewrite binary_round_aux_noshift
      by (rewrite digits2_iter_xO; fold D;
          replace (D + Zpos d + fx (D + e)) with (D + e) by lia; lia).
    destruct (_ <=? 104); [|exact I]. simpl.
    pose proof (digits2_bounds (Pos.iter xO M d)) as [_ Hhi].
    rewrite digits2_iter_xO in Hhi. fold D in Hhi.
    eapply Z.lt_le_trans; [exact Hhi|]. apply Z.pow_le_mono_r; lia.
Qed.

Lemma binary_normalize_mantissa (z e : Z) :
  smallMantissa (binary_normalize 24 128 z e false).
Proof.
  destruct z as [|M|M]; simpl; [exact I | apply binary_round_mantissa |].
  unfold binary_round. destruct (shl_align _ _ _) as [mz ez] eqn:Hal.
  rewrite binary_round_aux_opp.
  pose proof (binary_round_mantissa M e) as Hpos.
  unfold binary_round in Hpos. rewrite Hal in Hpos.
  destruct (binary_round_aux 24 128 false _ ez loc_Exact); exact Hpos.
Qed.

Lemma valid_smallMantissa (a : float) : F32.valid a = true → smallMantissa a.
Proof.
  destruct a as [s|s| |s m e]; try (intros; exact I).
  intros Hvalid. apply valid_digits in Hvalid. rewrite fx_eq in Hvalid.
  pose proof (digits2_bounds m) as [_ Hm]. simpl.
  eapply Z.lt_le_trans; [exact Hm|]. apply Z.pow_le_mono_r; lia.
Qed.

Lemma add_smallMantissa (a b : float) :
  smallMantissa a → smallMantissa b → smallMantissa (F32.add a b).
Proof.
  intros Ha Hb.
  destruct a as [[]|[]| |sa ma ea], b as [[]|[]| |sb mb eb];
    try exact I; try exact Ha; try exact Hb.
  apply binary_normalize_mantissa.
Qed.

Lemma sub_smallMantissa (a b : float) :
  smallMantissa a → smallMantissa b → smallMantissa (F32.sub a b).
Proof.
  intros Ha Hb.
  destruct a as [[]|[]| |sa ma ea], b as [[]|[]| |sb mb eb];
    try exact I; try exact Ha; try exact Hb.
  apply binary_normalize_mantissa.
Qed.

Lemma wrapPhi_smallMantissa (phi : float) :
  smallMantissa phi → smallMantissa (PreProcessEscapedRays.wrapPhi phi).
Proof.
  intros Hphi. unfold PreProcessEscapedRays.wrapPhi.
  destruct (F32.lt phi F32.zero); [apply add_smallMantissa; [exact Hphi|] |].
  - unfold TwoPi. simpl. lia.
  - destruct (F32.gt phi TwoPi); [|exact Hphi].
    apply sub_smallMantissa; [exact Hphi|]. unfold TwoPi. simpl. lia.
Qed.

Lemma digits2_ge (p : positive) (d : Z) :
  0 ≤ d → 2 ^ d ≤ Zpos p → d < Zpos (digits2_pos p).
Proof.
  intros Hd Hp. pose proof (digits2_bounds p) as [_ Hhi].
  apply (Z.pow_lt_mono_r_iff 2); lia.
Qed.

Lemma mul_Inv2Pi_range (x : float) :
  smallMantissa x → inClosedTurn x = true →
  F32.le F32.zero (F32.mul x Inv2Pi) = true ∧
  F32.le (F32.mul x Inv2Pi) F32.one = true.
Proof.
  intros Hsmall Hin. unfold inClosedTurn in Hin.
  apply andb_prop in Hin as [Hlo Hhi].
  destruct x as [s|s| |s m e].
  - destruct s; split; reflexivity.
  - destruct s; discriminate.
  - discriminate.
  - destruct s; [discriminate Hlo|]. simpl in Hsmall.
    change (2 ^ 24) with 16777216 in Hsmall.
    assert (Hex : e < -21 ∨ (e = -21 ∧ Zpos m ≤ 13176795)).
    { unfold F32.le, TwoPi, SFleb, SFcompare in Hhi.
      destruct (Z.compare_spec e (-21)) as [->| |]; [right|left; lia|discriminate].
      split; [reflexivity|].
      change (Pos.compare_cont Eq m 13176795) with (Pos.compare m 13176795) in Hhi.
      destruct (Pos.compare_spec m 13176795); try discriminate; lia. }
    unfold F32.mul, F32.prec, F32.emax, SFmul, Inv2Pi, F32.le, F32.zero, F32.one.
    cbn [xorb].
    set (M := (m * 10680707)%positive).
    assert (HM : Zpos M = Zpos m * 10680707) by reflexivity.
    assert (HD : 23 < Zpos (digits2_pos M)).
    { apply digits2_ge; [lia|]. change (2 ^ 23) with 8388608. lia. }
    assert (binary_round_aux 24 128 false (Zpos M) (e + -26) loc_Exact =
            binary_round 24 128 false M (e + -26)) as ->.
    { unfold binary_round. change (fexp 24 128) with fx.
      unfold shl_align.
      destruct (fx (Zpos (digits2_pos M) + (e + -26)) - (e + -26)) eqn:Hsh;
        try reflexivity.
      rewrite fx_eq in Hsh. lia. }
    apply (binary_round_below M 8388608 (e + -26) (-23) (e + -26));
      try reflexivity; try lia.
    rewrite Z.sub_diag. change (2 ^ 0) with 1. rewrite HM.
    destruct Hex as [He | [-> Hm]].
    + assert (2 ^ 25 ≤ 2 ^ (-23 - (e + -26))) by (apply Z.pow_le_mono_r; lia).
      change (2 ^ 25) with 33554432 in *. lia.
    + change (2 ^ (-23 - (-21 + -26))) with 16777216. lia.
Qed.

(** X23. Phase A emits a texture coordinate [v] between 0 and 1, both
    ends included, for every entry of the worker's share: 0 for a ray that
    did not escape, and for an escaped ray the wrapped longitude times
    [Inv2Pi], provided the raw longitude [atan2(dir.z, dir.x) +
    azimuthRotation] is a float between [-TwoPi] and [2 TwoPi]. *)
Theorem PreProcess_v_in_unit_interval `{Externs} (results : list TraceResult.t)
    (az : float) (w : Z) (u v : list float)
    (HW : 0 < numWorkers) (Hw : 0 ≤ w < numWorkers)
    (Hfit : size results + numWorkers ≤ 2 ^ 32)
    (Hu : size results ≤ size u) (Hv : size results ≤ size v)
    (Hphi : ∀ r res, r mod numWorkers = w → load results r = Some res →
              escaped (TraceResult.h res) = true →
              let dir := Ray.direction (HitRecord.r (TraceResult.h res)) in
              let phi := F32.add (atan2 (Vec3fa.z dir) (Vec3fa.x dir)) az in
              F32.valid phi = true ∧ F32.le (F32.opp TwoPi) phi = true ∧
              F32.le phi twoTurns = true) :
  ∃ u' v',
    PreProcessEscapedRays.compute results az w (u, v) = Some (u', v') ∧
    ∀ r res, r mod numWorkers = w → load results r = Some res →
      ∃ x, load v' r = Some x ∧
           F32.le F32.zero x = true ∧ F32.le x F32.one = true.
Proof.
  destruct (PreProcess_compute_lookup results az w u v)
    as (u' & v' & Hrun & Hlook); [lia..|].
  exists u', v'. split; [exact Hrun|].
  intros r res Hmod Hres. specialize (Hlook r res Hres).
  pose proof Hres as Hr. apply load_Some in Hr as [Hr _].
  destruct (decide (r ∈ strideIndices w (size results) numWorkers)) as [_|Hout].
  - injection Hlook as _ ->. eexists. split; [reflexivity|].
    unfold uvEntry. destruct (escaped (TraceResult.h res)) eqn:Hesc.
    + destruct (Hphi r res Hmod Hres Hesc) as (Hvalid & Hlo & Hhi).
      cbn [snd]. apply mul_Inv2Pi_range.
      * apply wrapPhi_smallMantissa, valid_smallMantissa, Hvalid.
      * apply wrapPhi_range; assumption.
    + split; reflexivity.
  - exfalso. apply Hout. apply elem_of_strideIndices_mod; [lia..|].
    split; [exact Hr | exact Hmod].
Qed.

Lemma PreProcess_v_in_unit_interval_witness :
  ∃ u' v' x,
    PreProcessEscapedRays.compute (H := fixedExterns None false)
      [escapedResult] TwoPi 0 ([F32.zero], [F32.zero]) = Some (u', v') ∧
    load v' 0 = Some x ∧ F32.le x F32.one = true.
Proof.
  destruct (@PreProcess_v_in_unit_interval (fixedExterns None false)
              [escapedResult] TwoPi 0 [F32.zero] [F32.zero])
    as (u' & v' & Hrun & Hrange).
  - simpl. lia.
  - simpl. lia.
  - simpl. unfold size. simpl. lia.
  - unfold size. simpl. lia.
  - unfold size. simpl. lia.
  - intros r res Hmod Hres Hesc. apply load_Some in Hres as [Hr Hres].
    unfold size in Hr. simpl in Hr. assert (r = 0) as -> by lia.
    simpl in Hres. injection Hres as <-. repeat split.
  - destruct (Hrange 0 escapedResult eq_refl eq_refl) as (x & Hx & _ & Hle).
    exists u', v', x. auto.
Defined.

(** ** The centroid of a box that is a point *)

Lemma iter_shr_1_exact (n : positive) :
  ∀ M m : positive,
    Zpos M = Zpos m * 2 ^ Zpos n →
    SpecFloat.iter_pos shr_1 n {| shr_m := Zpos M; shr_r := false; shr_s := false |}
    = {| shr_m := Zpos m; shr_r := false; shr_s := false |}.
Proof.
  induction n as [n IH|n IH|]; intros M m HM; cbn [SpecFloat.iter_pos].
  - rewrite pow2_xI in HM.
    assert (Zpos (m * 2 ^ n) = Zpos m * 2 ^ Zpos n) as Hm1
      by (rewrite Pos2Z.inj_mul, Pos2Z.inj_pow; reflexivity).
    destruct M as [M|M|]; [lia| |lia].
    change (shr_1 {| shr_m := Zpos M~0; shr_r := false; shr_s := false |})
      with {| shr_m := Zpos M; shr_r := false; shr_s := false |}.
    rewrite (IH M (m * 2 ^ n)%positive) by (rewrite Hm1; lia).
    apply IH. exact Hm1.
  - rewrite pow2_xO in HM.
    assert (Zpos (m * 2 ^ n) = Zpos m * 2 ^ Zpos n) as Hm1
      by (rewrite Pos2Z.inj_mul, Pos2Z.inj_pow; reflexivity).
    rewrite (IH M (m * 2 ^ n)%positive) by (rewrite Hm1; lia).
    apply IH. exact Hm1.
  - change (2 ^ 1) with 2 in HM. destruct M as [M|M|]; [lia| |lia].
    assert (M = m) as -> by lia. reflexivity.
Qed.

Lemma binary_round_aux_signed (s : bool) (m e : Z) (l : location) :
  binary_round_aux 24 128 s m e l =
  (if s then SFopp (binary_round_aux 24 128 false m e l)
   else binary_round_aux 24 128 false m e l).
Proof. destruct s; [apply binary_round_aux_opp | reflexivity]. Qed.

Lemma binary_round_aux_exact (M m n : positive) (e : Z) :
  Zpos M = Zpos m * 2 ^ Zpos n →
  fx (Zpos (digits2_pos M) + e) - e = Zpos n → e + Zpos n ≤ 104 →
  binary_round_aux 24 128 false (Zpos M) e loc_Exact
  = S754_finite false m (e + Zpos n).
Proof.
  intros HM Hsh He.
  assert (M = Pos.iter xO m n) as HMi.
  { apply Pos2Z.inj. rewrite iter_xO. exact HM. }
  assert (Zpos (digits2_pos M) = Zpos (digits2_pos m) + Zpos n) as HD
    by (rewrite HMi; apply digits2_iter_xO).
  unfold binary_round_aux, shr_fexp. cbn [Zdigits2 shr_record_of_loc].
  change (fexp 24 128) with fx. rewrite Hsh. cbn [shr].
  rewrite (iter_shr_1_exact n M m HM).
  cbn [shr_m loc_of_shr_record round_nearest_even Zdigits2 shr_record_of_loc].
  rewrite shr_nonpos
    by (replace (Zpos (digits2_pos m) + (e + Zpos n))
          with (Zpos (digits2_pos M) + e) by lia; lia).
  cbn [shr_m]. destruct (Z.leb_spec (e + Zpos n) (128 - 24)); [reflexivity|lia].
Qed.

Lemma half_sum_self (x : float) : doubles x = true → F32.mul (F32.add x x) F32.half = x.
Proof.
  unfold doubles. intros Hx. apply andb_prop in Hx as [Hvalid He].
  destruct x as [[]|[]| |s m e]; try reflexivity.
  apply Z.ltb_lt in He. apply valid_digits in Hvalid. rewrite fx_eq in Hvalid.
  pose proof (digits2_bounds m) as [_ Hm].
  set (D := Zpos (digits2_pos m)) in *.
  assert (F32.add (S754_finite s m e) (S754_finite s m e) =
          if D =? 24 then S754_finite s m (e + 1) else S754_finite s m~0 e) as ->.
  { unfold F32.add, F32.prec, F32.emax, SFadd. rewrite Z.min_id.
    unfold shl_align at 1 2. rewrite Z.sub_diag. cbn [fst].
    assert (binary_normalize 24 128
              (cond_Zopp s (Zpos m) + cond_Zopp s (Zpos m)) e false
            = binary_round 24 128 s m~0 e) as ->.
    { destruct s; cbn [cond_Zopp].
      - replace (- Zpos m + - Zpos m) with (Zneg m~0) by lia. reflexivity.
      - replace (Zpos m + Zpos m) with (Zpos m~0) by lia. reflexivity. }
    unfold binary_round. change (fexp 24 128) with fx.
    change (Zpos (digits2_pos m~0)) with (Zpos (Pos.succ (digits2_pos m))).
    rewrite Pos2Z.inj_succ. fold D.
    unfold shl_align. destruct (Z.eqb_spec D 24) as [HD|HD].
    - replace (fx (Z.succ D + e) - e) with 1 by (rewrite fx_eq; lia).
      cbv beta iota zeta. rewrite binary_round_aux_signed.
      rewrite (binary_round_aux_exact m~0 m 1 e);
        [destruct s; reflexivity | change (2 ^ 1) with 2; lia | |lia].
      change (Zpos (digits2_pos m~0)) with (Zpos (Pos.succ (digits2_pos m))).
      rewrite Pos2Z.inj_succ. fold D. rewrite fx_eq. lia.
    - replace (fx (Z.succ D + e) - e) with 0 by (rewrite fx_eq; lia).
      cbv beta iota zeta. rewrite binary_round_aux_signed.
      rewrite binary_round_aux_noshift.
      + destruct (Z.leb_spec e 104); [|lia]. destruct s; reflexivity.
      + change (Zpos (digits2_pos m~0)) with (Zpos (Pos.succ (digits2_pos m))).
        rewrite Pos2Z.inj_succ. fold D. rewrite fx_eq. lia. }
  unfold F32.mul, F32.prec, F32.emax, F32.half.
  destruct (Z.eqb_spec D 24) as [HD|HD]; unfold SFmul; rewrite xorb_false_r,
    binary_round_aux_signed.
  - rewrite (binary_round_aux_exact (m * 8388608) m 23 (e + 1 + -24)).
    + replace (e + 1 + -24 + 23) with e by lia. destruct s; reflexivity.
    + rewrite Pos2Z.inj_mul. reflexivity.
    + assert (Zpos (digits2_pos (m * 8388608)) = D + 23) as ->.
      { replace (m * 8388608)%positive with (Pos.iter xO m 23).
        - apply digits2_iter_xO.
        - apply Pos2Z.inj. rewrite iter_xO, Pos2Z.inj_mul. reflexivity. }
      rewrite fx_eq. lia.
    + lia.
  - rewrite (binary_round_aux_exact (m~0 * 8388608) m 24 (e + -24)).
    + replace (e + -24 + 24) with e by lia. destruct s; reflexivity.
    + rewrite Pos2Z.inj_mul, Pos2Z.inj_xO. change (2 ^ 24) with 16777216. lia.
    + assert (Zpos (digits2_pos (m~0 * 8388608)) = D + 24) as ->.
      { replace (m~0 * 8388608)%positive with (Pos.iter xO m 24).
        - apply digits2_iter_xO.
        - apply Pos2Z.inj. rewrite iter_xO, Pos2Z.inj_mul, Pos2Z.inj_xO.
          change (2 ^ 24) with 16777216. lia. }
      rewrite fx_eq. lia.
    + lia.
Qed.

(** X24. The centroid of a box whose two corners are the same point is
    that point, exactly, for every float coordinate (NaN, the infinities
    and signed zeros included) except a finite one in the topmost binade,
    where [max + min] overflows: for the largest finite float the centroid
    is plus infinity. *)
Theorem Bounds3d_centroid_of_point (p : Vec3fa.t)
    (Hx : doubles (Vec3fa.x p) = true) (Hy : doubles (Vec3fa.y p) = true)
    (Hz : doubles (Vec3fa.z p) = true) :
  Bounds3d.centroid (Bounds3d.mk p p) = p ∧
  Bounds3d.centroid (Bounds3d.mk (Vec3fa.splat maxFloat) (Vec3fa.splat maxFloat))
  = Vec3fa.splat F32.infinity.
Proof.
  split; [|reflexivity].
  destruct p as [x y z]. unfold Bounds3d.centroid, Vec3fa.scale, Vec3fa.add.
  cbn [Bounds3d.min Bounds3d.max Vec3fa.x Vec3fa.y Vec3fa.z] in *.
  rewrite !half_sum_self by assumption. reflexivity.
Qed.

Lemma Bounds3d_centroid_of_point_witness :
  Bounds3d.centroid
    (Bounds3d.mk (Vec3fa.mk F32.three F32.quiet_NaN F32.neg_infinity)
                 (Vec3fa.mk F32.three F32.quiet_NaN F32.neg_infinity))
  = Vec3fa.mk F32.three F32.quiet_NaN F32.neg_infinity.
Proof.
  apply (Bounds3d_centroid_of_point
           (Vec3fa.mk F32.three F32.quiet_NaN F32.neg_infinity));
    reflexivity.
Defined.

(** ** The absolute value of a vector *)

Lemma abs_opp (a : float) : F32.abs (F32.opp a) = F32.abs a.
Proof. destruct a as [[]|[]| |[] m e]; reflexivity. Qed.

Lemma abs_abs (a : float) : F32.abs (F32.abs a) = F32.abs a.
Proof. destruct a as [[]|[]| |[] m e]; reflexivity. Qed.

Lemma abs_nonneg (a : float) : F32.is_nan a = false → F32.le F32.zero (F32.abs a) = true.
Proof. destruct a as [[]|[]| |[] m e]; intros H; try discriminate H; reflexivity. Qed.

(** X25. [abs] does not see the sign of its argument and is idempotent,
    for every input; on a vector without NaN every component of the result
    is at least zero, and the result has a NaN exactly when the argument
    has one. *)
Theorem Vec3fa_abs_sign (v : Vec3fa.t) :
  Vec3fa.abs (Vec3fa.neg v) = Vec3fa.abs v ∧
  Vec3fa.abs (Vec3fa.abs v) = Vec3fa.abs v ∧
  Vec3fa.has_nan (Vec3fa.abs v) = Vec3fa.has_nan v ∧
  (Vec3fa.has_nan v = false → vle (Vec3fa.splat F32.zero) (Vec3fa.abs v) = true).
Proof.
  destruct v as [x y z]. unfold Vec3fa.abs, Vec3fa.neg, Vec3fa.has_nan, vle.
  cbn [Vec3fa.x Vec3fa.y Vec3fa.z Vec3fa.splat].
  rewrite !abs_opp, !abs_abs.
  split; [reflexivity|]. split; [reflexivity|]. split.
  - assert (∀ a, F32.is_nan (F32.abs a) = F32.is_nan a) as Hn
      by (intros [[]|[]| |[] m e]; reflexivity).
    rewrite !Hn. reflexivity.
  - intros Hv. apply orb_false_elim in Hv as [Hxy Hz].
    apply orb_false_elim in Hxy as [Hx Hy].
    rewrite !abs_nonneg by assumption. reflexivity.
Qed.

Lemma Vec3fa_abs_sign_witness :
  Vec3fa.abs (Vec3fa.neg vone) = Vec3fa.abs vone ∧
  vle (Vec3fa.splat F32.zero) (Vec3fa.abs (Vec3fa.neg vhalf)) = true.
Proof.
  split.
  - apply (Vec3fa_abs_sign vone).
  - apply (Vec3fa_abs_sign (Vec3fa.neg vhalf)). reflexivity.
Defined.
